(** * Card matcher: a shallow embedding of [card_matcher.py]

    The development follows the Python module top-down: the variant
    registries, the two parsers ([parse_ebay_title], [parse_card_name]),
    the scorer ([score_match]), the matcher ([find_best_match]) and the
    fair-value selector ([get_fair_value]).

    Modelling conventions.
    - A Python [str] is a Rocq [string], read as the UTF-8 bytes of the text.
      Case mapping, white space, digits and word characters are those of
      ASCII; a byte above 127 is a caseless symbol that is neither a digit,
      nor white space, nor a word character (this is what Python does for the
      only non-ASCII character of the module, the star of the gold-star
      aliases).
    - [None] is [None]; a value that may be [None] has an [option] type.
    - A raised exception is the [Raise] constructor of [result].
    - The regular expressions of the module are run by a small backtracking
      matcher with the priorities of Python's [re] (greedy and lazy stars,
      ordered alternation, groups, word boundary).
    - A Python [set] of strings is a [gset string]; iterating over it visits
      [elements] of the set.  Python leaves that order unspecified; only the
      order of the reasons inside one group of the breakdown depends on it. *)

From Stdlib Require Import ZArith Ascii String List Bool Lia.
From stdpp Require Import base decidable option list gmap strings.
Import ListNotations.

#[local] Set Warnings "-clear-no-such-hyp".

Local Open Scope string_scope.
Local Open Scope list_scope.
Local Open Scope Z_scope.

(** ** Exceptions *)

Inductive exn := ValueError | IndexError.

Inductive result (A : Type) :=
| Ok (a : A)
| Raise (e : exn).
Arguments Ok {A} a.
Arguments Raise {A} e.

#[global] Instance result_ret : MRet result := fun _ a => Ok a.

#[global] Instance result_bind : MBind result := fun _ _ f m =>
  match m with
  | Ok a => f a
  | Raise e => Raise e
  end.

(** ** Characters *)

Module Char.

Definition code (c : ascii) : N := N_of_ascii c.

Definition between (lo hi : N) (c : ascii) : bool :=
  ((lo <=? code c) && (code c <=? hi))%N.

Definition is_upper : ascii -> bool := between 65 90.
Definition is_lower : ascii -> bool := between 97 122.
Definition is_alpha (c : ascii) : bool := is_upper c || is_lower c.
Definition is_digit : ascii -> bool := between 48 57.

(** [str.isspace] on the ASCII range: TAB LF VT FF CR, FS GS RS US, SPACE. *)
Definition is_space (c : ascii) : bool :=
  between 9 13 c || between 28 31 c || (code c =? 32)%N.

(** [\w]: letters, digits and the underscore. *)
Definition is_word (c : ascii) : bool :=
  is_alpha c || is_digit c || (code c =? 95)%N.

Definition lower (c : ascii) : ascii :=
  if is_upper c then ascii_of_N (code c + 32) else c.

Definition upper (c : ascii) : ascii :=
  if is_lower c then ascii_of_N (code c - 32) else c.

Definition eqb_nocase (a b : ascii) : bool := Ascii.eqb (lower a) (lower b).

Definition digit_value (c : ascii) : Z := Z.of_N (code c) - 48.

End Char.

(** ** Strings: the [str] methods the module calls *)

Module Str.

Abbreviation chars := list_ascii_of_string.
Abbreviation of_chars := string_of_list_ascii.

Definition lower (s : string) : string := of_chars (map Char.lower (chars s)).
Definition upper (s : string) : string := of_chars (map Char.upper (chars s)).

Fixpoint starts_with (p l : list ascii) : bool :=
  match p, l with
  | [], _ => true
  | a :: p', b :: l' => Ascii.eqb a b && starts_with p' l'
  | _ :: _, [] => false
  end.

Fixpoint contains_chars (p l : list ascii) : bool :=
  starts_with p l ||
  match l with
  | [] => false
  | _ :: l' => contains_chars p l'
  end.

(** [needle in hay] *)
Definition contains (needle hay : string) : bool :=
  contains_chars (chars needle) (chars hay).

Fixpoint lstrip_by (p : ascii -> bool) (l : list ascii) : list ascii :=
  match l with
  | c :: l' => if p c then lstrip_by p l' else l
  | [] => []
  end.

Definition rstrip_by (p : ascii -> bool) (l : list ascii) : list ascii :=
  rev (lstrip_by p (rev l)).

Definition strip_chars (l : list ascii) : list ascii :=
  lstrip_by Char.is_space (rstrip_by Char.is_space l).

(** [s.strip()] *)
Definition strip (s : string) : string := of_chars (strip_chars (chars s)).

(** [s.lstrip("0")] *)
Definition lstrip_zeros (s : string) : string :=
  of_chars (lstrip_by (Ascii.eqb "0") (chars s)).

(** [s.split()]: the maximal runs of characters that are not white space.
    [cur] is the run being read, reversed. *)
Fixpoint split_go (cur : list ascii) (l : list ascii) : list string :=
  match l with
  | [] => match cur with [] => [] | _ => [of_chars (rev cur)] end
  | c :: l' =>
      if Char.is_space c
      then match cur with
           | [] => split_go [] l'
           | _ => of_chars (rev cur) :: split_go [] l'
           end
      else split_go (c :: cur) l'
  end.

Definition split (s : string) : list string := split_go [] (chars s).

(** Truth value of a string: [bool(s)]. *)
Definition truthy (s : string) : bool :=
  match s with
  | EmptyString => false
  | String _ _ => true
  end.

(** [str(x)] of an optional string inside an f-string. *)
Definition fmt (o : option string) : string :=
  match o with
  | Some s => s
  | None => "None"
  end.

End Str.

(** ** Regular expressions

    The fragment of Python's [re] that the module uses, run by backtracking
    with Python's priorities.  A match proceeds over a state that keeps the
    text already read (reversed, so that its head is the previous character),
    the text still to read, and the groups closed so far. *)

Module Re.

Inductive regex :=
| Chr (p : ascii -> bool)             (* one character of a class *)
| Eps                                 (* the empty pattern *)
| Seq (r1 r2 : regex)                 (* r1 r2 *)
| Alt (r1 r2 : regex)                 (* r1|r2, left branch first *)
| Star (greedy : bool) (r : regex)    (* r* and r*? *)
| WordB                               (* \b *)
| Group (i : nat) (r : regex).        (* (r), numbered *)

Definition Plus (r : regex) : regex := Seq r (Star true r).
Definition Opt (r : regex) : regex := Alt r Eps.

(** [r{1,4}], greedy. *)
Definition Rep1to4 (r : regex) : regex :=
  Seq r (Opt (Seq r (Opt (Seq r (Opt r))))).

Fixpoint Lit (cs : list ascii) : regex :=
  match cs with
  | [] => Eps
  | c :: cs' => Seq (Chr (Ascii.eqb c)) (Lit cs')
  end.

(** A literal under [re.IGNORECASE]. *)
Fixpoint LitNoCase (cs : list ascii) : regex :=
  match cs with
  | [] => Eps
  | c :: cs' => Seq (Chr (Char.eqb_nocase c)) (LitNoCase cs')
  end.

Fixpoint AltList (rs : list regex) : regex :=
  match rs with
  | [] => Chr (fun _ => false)
  | [r] => r
  | r :: rs' => Alt r (AltList rs')
  end.

Record mstate := MState {
  seen : list ascii;                  (* text before the position, reversed *)
  rest : list ascii;                  (* text from the position on *)
  groups : list (nat * list ascii)    (* closed groups, latest first *)
}.

Definition at_word (l : list ascii) : bool :=
  match l with
  | c :: _ => Char.is_word c
  | [] => false
  end.

(** [\b] holds where exactly one of the two neighbours is a word character. *)
Definition word_boundary (st : mstate) : bool :=
  xorb (at_word (seen st)) (at_word (rest st)).

(** The text read between state [a] and the later state [b]. *)
Definition text_between (a b : mstate) : list ascii :=
  rev (take (length (seen b) - length (seen a))%nat (seen b)).

Definition close_group (i : nat) (a b : mstate) : mstate :=
  MState (seen b) (rest b) ((i, text_between a b) :: groups b).

Fixpoint group_lookup (i : nat) (gs : list (nat * list ascii)) : option (list ascii) :=
  match gs with
  | [] => None
  | (j, t) :: gs' => if Nat.eqb i j then Some t else group_lookup i gs'
  end.

(** [m.group(i)] *)
Definition group (i : nat) (m : mstate) : option string :=
  Str.of_chars <$> group_lookup i (groups m).

Definition orelse {A} (x : option A) (y : unit -> option A) : option A :=
  match x with
  | Some a => Some a
  | None => y tt
  end.

(** [rmatch r st k]: match [r] at [st], then run the rest of the pattern [k];
    the first success in priority order is the answer.  A star iterates at
    most once per remaining character, each iteration reading at least one. *)
Fixpoint rmatch (r : regex) (st : mstate) (k : mstate -> option mstate)
  {struct r} : option mstate :=
  match r with
  | Chr p =>
      match rest st with
      | c :: tl => if p c then k (MState (c :: seen st) tl (groups st)) else None
      | [] => None
      end
  | Eps => k st
  | Seq r1 r2 => rmatch r1 st (fun st1 => rmatch r2 st1 k)
  | Alt r1 r2 => orelse (rmatch r1 st k) (fun _ => rmatch r2 st k)
  | Star greedy r1 =>
      (fix loop (n : nat) (st : mstate) {struct n} : option mstate :=
         match n with
         | O => k st
         | S n' =>
             let again (_ : unit) :=
               rmatch r1 st (fun st' =>
                 if (length (rest st') <? length (rest st))%nat
                 then loop n' st' else None) in
             if greedy then orelse (again tt) (fun _ => k st)
             else orelse (k st) again
         end) (length (rest st)) st
  | WordB => if word_boundary st then k st else None
  | Group i r1 => rmatch r1 st (fun st' => k (close_group i st st'))
  end.

Definition match_at (r : regex) (before after : list ascii) : option mstate :=
  rmatch r (MState before after []) Some.

(** [re.search]: the match at the leftmost position that has one. *)
Fixpoint search_from (r : regex) (before after : list ascii) {struct after}
  : option mstate :=
  match match_at r before after with
  | Some m => Some m
  | None =>
      match after with
      | [] => None
      | c :: after' => search_from r (c :: before) after'
      end
  end.

Definition search (r : regex) (s : string) : option mstate :=
  search_from r [] (Str.chars s).

(** The matches of [re.findall] and [re.sub], left to right, not overlapping.
    None of the module's patterns for these two calls matches the empty
    string; a match that reads nothing is treated as no match here. *)
Fixpoint scan (fuel : nat) (r : regex) (before after : list ascii)
  : list (list ascii + mstate) :=
  match fuel with
  | O => []
  | S fuel' =>
      match match_at r before after with
      | Some m =>
          if (length (rest m) <? length after)%nat
          then inr m :: scan fuel' r (seen m) (rest m)
          else match after with
               | [] => []
               | c :: after' => inl [c] :: scan fuel' r (c :: before) after'
               end
      | None =>
          match after with
          | [] => []
          | c :: after' => inl [c] :: scan fuel' r (c :: before) after'
          end
      end
  end.

Definition scan_string (r : regex) (s : string) : list (list ascii + mstate) :=
  scan (S (String.length s)) r [] (Str.chars s).

(** [re.findall(r, s)] for a pattern with one group. *)
Definition findall1 (r : regex) (s : string) : list string :=
  omap (fun x => match x with
                 | inl _ => None
                 | inr m => group 1 m
                 end) (scan_string r s).

(** [re.sub(r, '', s)] *)
Definition sub_empty (r : regex) (s : string) : string :=
  Str.of_chars (concat (map (fun x => match x with
                                       | inl cs => cs
                                       | inr _ => []
                                       end) (scan_string r s))).

End Re.

(** ** Variant definitions *)

(** The registries are Python dicts; a dict iterates in insertion order, so
    each is the list of its items in source order. *)
Definition VALUE_VARIANTS : list (string * list string) :=
  [ ("1st edition", ["1st edition"; "1st ed"; "1st ed."; "first edition"]);
    ("gold star", ["gold star"; "goldstar"; "gold ★"; " ★ "]);
    ("shadowless", ["shadowless"; "shadow less"]);
    ("1999-2000", ["1999-2000"; "1999 2000"; "uk print"; "4th print"]);
    ("black dot error", ["black dot error"; "black dot"]);
    ("tekno", ["tekno"; "techno"]);
    ("sparkle", ["sparkle"; "spectra"]);
    ("for position only", ["for position only"; "fpo"; "test print"]);
    ("trainer deck a", ["trainer deck a"]);
    ("trainer deck b", ["trainer deck b"]);
    ("prerelease staff", ["prerelease staff"; "pre-release staff"; "staff prerelease"]);
    ("prerelease", ["prerelease"; "pre-release"; "pre release"]);
    ("staff", ["staff"]);
    ("error", ["error"; "misprint"]);
    ("double holo error", ["double holo"; "double holo error"]);
    ("stadium challenge", ["stadium challenge"]);
    ("cosmos professor program", ["cosmos professor program"; "cosmos professor"]);
    ("professor program", ["professor program"; "professor promo"]);
    ("championships", ["championship"; "championships"; "worlds"]);
    ("quarter-finalist", ["quarter-finalist"; "quarter finalist"; "qf"]);
    ("semi-finalist", ["semi-finalist"; "semi finalist"; "sf"]);
    ("top thirty-two", ["top thirty-two"; "top 32"; "top thirty two"]);
    ("top 8", ["top 8"; "top eight"]);
    ("ultra ball league", ["ultra ball league"]);
    ("premier ball league", ["premier ball league"]);
    ("regional championship staff", ["regional championship staff"]) ].

Definition COSMETIC_VARIANTS : list (string * list string) :=
  [ ("reverse holo", ["reverse holo"; "reverse holographic"; "rev holo"; "reverse"]);
    ("holo", ["holo"; "holographic"; "holofoil"]);
    ("foil", ["foil"]);
    ("rainbow foil", ["rainbow foil"; "rainbow"]);
    ("non-holo", ["non-holo"; "non holo"; "nonholo"]) ].

(** ** Title parsing *)

Module Ebay.
(** The dict returned by [parse_ebay_title]. *)
Record parsed := Parsed {
  title_lower : string;
  card_number : option string;
  grading_company : option string;
  grade_number : option string;
  is_graded : bool;
  value_variants_found : list string;
  cosmetic_variants_found : list string
}.
End Ebay.

Module Card.
(** The dict returned by [parse_card_name]. *)
Record parsed := Parsed {
  base_name : string;
  card_number : option string;
  value_variants : list string;
  cosmetic_variants : list string
}.
End Card.

Module Pat.
Import Re.

Definition digit : regex := Chr Char.is_digit.
Definition space : regex := Chr Char.is_space.
Definition letter : regex := Chr Char.is_alpha.
Definition nonspace : regex := Chr (fun c => negb (Char.is_space c)).
(** [.] without DOTALL: any character but the line feed. *)
Definition dot : regex := Chr (fun c => negb (Ascii.eqb c "010")).
Definition ch (c : ascii) : regex := Chr (Ascii.eqb c).
Definition word (s : string) : regex := Lit (Str.chars s).

Definition companies : list string :=
  ["PSA"; "CGC"; "BGS"; "SGC"; "ACE"; "AGS"; "TAG"; "GMA"; "MNT"].

(** [\d+\.?\d*] *)
Definition grade_digits : regex :=
  Seq (Plus digit) (Seq (Opt (ch ".")) (Star true digit)).

(** [\b(PSA|CGC|BGS|SGC|ACE|AGS|TAG|GMA|MNT)\s*(G)\b] under IGNORECASE,
    where [G] is [grade_digits]. *)
Definition grade : regex :=
  Seq WordB
   (Seq (Group 1 (AltList (map (fun s => LitNoCase (Str.chars s)) companies)))
     (Seq (Star true space)
       (Seq (Group 2 grade_digits) WordB))).

(** [\bgraded\b] *)
Definition graded : regex := Seq WordB (Seq (word "graded") WordB).

(** [(\d{1,4})\s*/\s*\d{1,4}] *)
Definition fraction : regex :=
  Seq (Group 1 (Rep1to4 digit))
   (Seq (Star true space)
     (Seq (ch "/") (Seq (Star true space) (Rep1to4 digit)))).

(** [#\s*(N)] where [N] is [[A-Za-z]*\d+[A-Za-z]*]. *)
Definition hash_number : regex :=
  Seq (ch "#")
   (Seq (Star true space)
     (Group 1 (Seq (Star true letter) (Seq (Plus digit) (Star true letter))))).

(** [\[(.*?)\]] *)
Definition tag : regex :=
  Seq (ch "[") (Seq (Group 1 (Star false dot)) (ch "]")).

(** [#(\S+)] *)
Definition hash_suffix : regex := Seq (ch "#") (Group 1 (Plus nonspace)).

End Pat.

(** [x or d] on strings. *)
Definition or_else (x d : string) : string := if Str.truthy x then x else d.

(** [bool(x)] of a value that is a string or [None]. *)
Definition truthy_opt (x : option string) : bool :=
  match x with
  | Some s => Str.truthy s
  | None => false
  end.

(** The detection loop over one registry:
    the keys, in registry order, one of whose aliases occurs in the title. *)
Definition detect_variants (registry : list (string * list string))
  (title_lower : string) : list string :=
  omap (fun '(variant_key, aliases) =>
          if existsb (fun alias => Str.contains (Str.lower alias) title_lower) aliases
          then Some variant_key else None)
       registry.

Definition mem (x : string) (l : list string) : bool :=
  existsb (String.eqb x) l.

(** [l.remove(x)]: drops the first occurrence (the callers check [x in l]). *)
Fixpoint remove_first (x : string) (l : list string) : list string :=
  match l with
  | [] => []
  | y :: l' => if String.eqb x y then l' else y :: remove_first x l'
  end.

(** Step "Extract grading info": company, grade, graded flag. *)
Definition grading_info (title title_lower : string)
  : option string * option string * bool :=
  match Re.search Pat.grade title with
  | Some grade_match =>
      (Str.upper <$> Re.group 1 grade_match, Re.group 2 grade_match, true)
  | None =>
      match Re.search Pat.graded title_lower with
      | Some _ => (None, None, true)
      | None => (None, None, false)
      end
  end.

(** Step "Extract card number": the fraction pattern, else the hash pattern. *)
Definition extract_card_number (title : string) : option string :=
  let card_number :=
    match Re.search Pat.fraction title with
    | Some num_match =>
        (fun g => or_else (Str.lstrip_zeros g) "0") <$> Re.group 1 num_match
    | None => None
    end in
  if negb (truthy_opt card_number) then
    match Re.search Pat.hash_number title with
    | Some num_match => Re.group 1 num_match
    | None => card_number
    end
  else card_number.

(** Cosmetic detection with the special case for "reverse holo". *)
Definition detect_cosmetic (title_lower : string) : list string :=
  let cosmetic_variants_found := detect_variants COSMETIC_VARIANTS title_lower in
  if mem "reverse holo" cosmetic_variants_found
     && mem "holo" cosmetic_variants_found
  then remove_first "holo" cosmetic_variants_found
  else cosmetic_variants_found.

Definition parse_ebay_title (title : option string) : option Ebay.parsed :=
  match title with
  | None => None
  | Some title =>
    if negb (Str.truthy title) then None else
    let title_lower := Str.lower title in
    let '(grading_company, grade_number, is_graded) :=
      grading_info title title_lower in
    Some (Ebay.Parsed title_lower (extract_card_number title)
            grading_company grade_number is_graded
            (detect_variants VALUE_VARIANTS title_lower)
            (detect_cosmetic title_lower))
  end.

(** The first key of a registry that occurs in a bracket tag. *)
Definition first_key_in (registry : list (string * list string))
  (tag_lower : string) : option string :=
  fst <$> find (fun item => Str.contains (fst item) tag_lower) registry.

(** The loop of [parse_card_name] over the bracket tags. *)
Fixpoint classify_tags (all_tags : list string)
  (value_vars cosmetic_vars : list string) : list string * list string :=
  match all_tags with
  | [] => (value_vars, cosmetic_vars)
  | tag :: tags =>
      let tag_lower := Str.lower tag in
      match first_key_in VALUE_VARIANTS tag_lower with
      | Some variant_key =>
          classify_tags tags (value_vars ++ [variant_key]) cosmetic_vars
      | None =>
          match first_key_in COSMETIC_VARIANTS tag_lower with
          | Some variant_key =>
              classify_tags tags value_vars (cosmetic_vars ++ [variant_key])
          | None => classify_tags tags value_vars cosmetic_vars
          end
      end
  end.

Definition parse_card_name (card_name : option string) : option Card.parsed :=
  match card_name with
  | None => None
  | Some card_name =>
    if negb (Str.truthy card_name) then None else
    let all_tags := Re.findall1 Pat.tag card_name in
    let '(value_vars, cosmetic_vars) := classify_tags all_tags [] [] in
    let clean := Str.strip (Re.sub_empty Pat.tag card_name) in
    let card_number :=
      match Re.search Pat.hash_suffix clean with
      | Some num_match => Re.group 1 num_match
      | None => None
      end in
    let base_name := Str.strip (Re.sub_empty Pat.hash_suffix clean) in
    Some (Card.Parsed base_name card_number value_vars cosmetic_vars)
  end.

(** ** Matching logic *)

Definition base_name_reward : Z := 20.
Definition gate_penalty : Z := 100.
Definition number_reward : Z := 15.
Definition number_penalty : Z := 20.
Definition value_match_reward : Z := 10.
Definition value_mismatch_penalty : Z := 50.
Definition cosmetic_match_reward : Z := 3.
Definition cosmetic_mismatch_penalty : Z := 10.

(** One [for v in vars: score += delta; breakdown.append(...)] loop. *)
Definition tally (delta : Z) (reason : string -> string) (vars : gset string)
  (acc : Z * list string) : Z * list string :=
  foldl (fun '(score, breakdown) v => (score + delta, breakdown ++ [reason v]))
        acc (elements vars).

(** [base_lower.split()[0] if base_lower else ""] *)
Definition first_word (base_lower : string) : result string :=
  if Str.truthy base_lower then
    match Str.split base_lower with
    | w :: _ => Ok w
    | [] => Raise IndexError
    end
  else Ok "".

Definition quote (s : string) : string := "'" +:+ s +:+ "'".

(** Steps 2 to 4 of [score_match], run once the base-name gate is passed. *)
Definition score_after_gate (ebay_parsed : Ebay.parsed) (card_parsed : Card.parsed)
  (acc : Z * list string) : Z * list string :=
  let '(score, breakdown) := acc in
  let '(score, breakdown) :=
    match Card.card_number card_parsed, Ebay.card_number ebay_parsed with
    | Some card_number, Some ebay_number =>
        if Str.truthy card_number && Str.truthy ebay_number then
          let card_num_clean := or_else (Str.lstrip_zeros card_number) "0" in
          let ebay_num_clean := or_else (Str.lstrip_zeros ebay_number) "0" in
          if String.eqb (Str.lower card_num_clean) (Str.lower ebay_num_clean)
          then (score + number_reward,
                breakdown ++ ["+15 number " +:+ quote card_num_clean])
          else (score - number_penalty,
                breakdown ++ ["-20 number mismatch: card=" +:+ quote card_num_clean
                              +:+ " ebay=" +:+ quote ebay_num_clean])
        else (score, breakdown)
    | _, _ => (score, breakdown)
    end in
  let card_value_vars : gset string := list_to_set (Card.value_variants card_parsed) in
  let ebay_value_vars : gset string := list_to_set (Ebay.value_variants_found ebay_parsed) in
  let acc :=
    tally value_match_reward
      (fun v => "+10 value variant " +:+ quote v +:+ " MATCH")
      (card_value_vars ∩ ebay_value_vars) (score, breakdown) in
  let acc :=
    tally (- value_mismatch_penalty)
      (fun v => "-50 card has " +:+ quote v +:+ " but eBay title MISSING it")
      (card_value_vars ∖ ebay_value_vars) acc in
  let acc :=
    tally (- value_mismatch_penalty)
      (fun v => "-50 eBay title has " +:+ quote v +:+ " but card DOESN'T")
      (ebay_value_vars ∖ card_value_vars) acc in
  let card_cos_vars : gset string := list_to_set (Card.cosmetic_variants card_parsed) in
  let ebay_cos_vars : gset string := list_to_set (Ebay.cosmetic_variants_found ebay_parsed) in
  let acc :=
    tally cosmetic_match_reward
      (fun v => "+3 cosmetic " +:+ quote v +:+ " match")
      (card_cos_vars ∩ ebay_cos_vars) acc in
  let acc :=
    tally (- cosmetic_mismatch_penalty)
      (fun v => "-10 card has cosmetic " +:+ quote v +:+ " but title missing")
      (card_cos_vars ∖ ebay_cos_vars) acc in
  tally (- cosmetic_mismatch_penalty)
    (fun v => "-10 title has cosmetic " +:+ quote v +:+ " but card doesn't")
    (ebay_cos_vars ∖ card_cos_vars) acc.

Definition score_match (ebay_parsed : option Ebay.parsed)
  (card_parsed : option Card.parsed) : result (Z * list string) :=
  match ebay_parsed, card_parsed with
  | Some ebay_parsed, Some card_parsed =>
      let score := 0 in
      let breakdown : list string := [] in
      let base_lower := Str.lower (Card.base_name card_parsed) in
      base_first_word ← first_word base_lower;
      if Str.truthy base_first_word
         && Str.contains base_first_word (Ebay.title_lower ebay_parsed)
      then
        Ok (score_after_gate ebay_parsed card_parsed
              (score + base_name_reward,
               breakdown ++ ["+20 name " +:+ quote base_first_word]))
      else
        Ok (score - gate_penalty,
            breakdown ++ ["-100 name " +:+ quote base_first_word +:+ " NOT FOUND"])
  | _, _ => Ok (-100, ["no data"])
  end.

(** A field of a candidate dict that holds a price: the key may be absent,
    or hold [None], or hold an integer (minor currency units). *)
Inductive field :=
| Absent
| Null
| Int (z : Z).

(** [d.get(key)] and [d.get(key, default)]; the result is [None] or an integer. *)
Definition get (f : field) : option Z :=
  match f with
  | Int z => Some z
  | _ => None
  end.

Definition get_default (f : field) (default : Z) : option Z :=
  match f with
  | Absent => Some default
  | Null => None
  | Int z => Some z
  end.

(** A card dict of [card_trends].  [card_name] is a string or [None]
    (an absent key reads as the empty string, which parses no better). *)
Record candidate := Candidate {
  card_slug : string;
  card_name : option string;
  set_name : string;
  current_raw : field;
  current_psa10 : field;
  current_psa9 : field
}.

Inductive confidence := high | medium | low | none.

Definition confidence_of (best_score : Z) : confidence :=
  if 35 <=? best_score then high
  else if 20 <=? best_score then medium
  else if 0 <=? best_score then low
  else none.

(** The state of the loop of [find_best_match]. *)
Abbreviation best := (option candidate * Z * list string)%type.

Definition consider (ebay_parsed : Ebay.parsed) (acc : result best)
  (card : candidate) : result best :=
  '(best_card, best_score, best_breakdown) ← acc;
  match parse_card_name (card_name card) with
  | None => Ok (best_card, best_score, best_breakdown)
  | Some card_parsed =>
      '(score, breakdown) ← score_match (Some ebay_parsed) (Some card_parsed);
      if best_score <? score
      then Ok (Some card, score, breakdown)
      else Ok (best_card, best_score, best_breakdown)
  end.

Definition find_best_match (ebay_title : option string)
  (candidates : list candidate)
  : result (option candidate * Z * list string * confidence) :=
  match parse_ebay_title ebay_title with
  | None => Ok (None, 0, [], none)
  | Some ebay_parsed =>
      '(best_card, best_score, best_breakdown) ←
        foldl (consider ebay_parsed) (Ok (None, -999, [])) candidates;
      Ok (best_card, best_score, best_breakdown, confidence_of best_score)
  end.

(** ** [float(s) >= 9]

    [float] reads a decimal literal and rounds it to the nearest binary64
    number, ties to even.  The embedding keeps the literal exact and decides
    the comparison with 9 on it: 9 is a binary64 number with an even
    significand, its predecessor is [9 - 2^-49], so a literal rounds to 9 or
    more exactly when it is at least [9 - 2^-50]. *)

Module Float.

Inductive literal :=
| Inf (negative : bool)
| NaN
| Dec (negative : bool) (mantissa exp10 : Z).   (* +- mantissa * 10^exp10 *)

(** White space that [float] strips from an ASCII string. *)
Definition is_c_space (c : ascii) : bool :=
  Char.between 9 13 c || (Char.code c =? 32)%N.

(** Digits after a first digit; one underscore may sit between two digits.
    Returns the digits read and the text left. *)
Fixpoint digit_run (l : list ascii) : list ascii * list ascii :=
  match l with
  | c :: l' =>
      if Char.is_digit c then
        let '(ds, r) := digit_run l' in (c :: ds, r)
      else if Ascii.eqb c "_" then
        match l' with
        | d :: l'' =>
            if Char.is_digit d then
              let '(ds, r) := digit_run l'' in (d :: ds, r)
            else ([], l)
        | [] => ([], l)
        end
      else ([], l)
  | [] => ([], [])
  end.

Definition digitpart (l : list ascii) : list ascii * list ascii :=
  match l with
  | c :: l' =>
      if Char.is_digit c then
        let '(ds, r) := digit_run l' in (c :: ds, r)
      else ([], l)
  | [] => ([], [])
  end.

Definition digits_value (ds : list ascii) : Z :=
  fold_left (fun acc c => 10 * acc + Char.digit_value c) ds 0.

Definition sign (l : list ascii) : bool * list ascii :=
  match l with
  | "+"%char :: l' => (false, l')
  | "-"%char :: l' => (true, l')
  | _ => (false, l)
  end.

Definition exponent (l : list ascii) : option Z :=
  match l with
  | [] => Some 0
  | c :: l' =>
      if Ascii.eqb (Char.lower c) "e" then
        let '(negative, l'') := sign l' in
        match digitpart l'' with
        | (d :: ds, []) =>
            let e := digits_value (d :: ds) in
            Some (if negative then - e else e)
        | _ => None
        end
      else None
  end.

(** [float(s)] before rounding; [None] is the [ValueError]. *)
Definition parse (s : string) : option literal :=
  let cs := Str.lstrip_by is_c_space (Str.rstrip_by is_c_space (Str.chars s)) in
  let '(negative, body) := sign cs in
  let word := Str.of_chars (map Char.lower body) in
  if String.eqb word "inf" || String.eqb word "infinity" then Some (Inf negative)
  else if String.eqb word "nan" then Some NaN
  else
    let '(int_part, r1) := digitpart body in
    let '(frac_part, r2) :=
      match r1 with
      | "."%char :: r => digitpart r
      | _ => ([], r1)
      end in
    match int_part ++ frac_part with
    | [] => None
    | ds =>
        e ← exponent r2;
        Some (Dec negative (digits_value ds) (e - Z.of_nat (length frac_part)))
    end.

(** [x >= 9] after rounding. *)
Definition ge9 (x : literal) : bool :=
  match x with
  | NaN => false
  | Inf negative => negb negative
  | Dec true _ _ => false
  | Dec false m e =>
      let bound := 9 * 2 ^ 50 - 1 in      (* (9 - 2^-50) * 2^50 *)
      if 0 <=? e then bound <=? m * 10 ^ e * 2 ^ 50
      else bound * 10 ^ (- e) <=? m * 2 ^ 50
  end.

(** [float(s) >= 9] *)
Definition float_ge9 (s : string) : result bool :=
  match parse s with
  | Some x => Ok (ge9 x)
  | None => Raise ValueError
  end.

End Float.

(** ** Fair value *)

(** [val and val > 0] *)
Definition usable (val : option Z) : bool :=
  match val with
  | Some z => negb (z =? 0) && (0 <? z)
  | None => false
  end.

Definition opt_eqb (x : option string) (s : string) : bool :=
  match x with
  | Some t => String.eqb t s
  | None => false
  end.

(** The result is the pair (value, label); the value is an integer, or [None]
    when it is read from a field that holds [None]. *)
Definition get_fair_value (card : option candidate)
  (ebay_parsed : option Ebay.parsed) : result (option Z * string) :=
  match ebay_parsed, card with
  | Some ebay_parsed, Some card =>
      let raw := Ok (get_default (current_raw card) 0, "Raw") in
      if Ebay.is_graded ebay_parsed then
        let grade := Ebay.grade_number ebay_parsed in
        let company := Ebay.grading_company ebay_parsed in
        let label := Str.fmt company +:+ " " +:+ Str.fmt grade in
        if opt_eqb grade "10" && usable (get (current_psa10 card))
        then Ok (get (current_psa10 card), label)
        else
          at_least_9 ←
            (if truthy_opt grade
             then Float.float_ge9 (default "" grade)
             else Ok false);
          if at_least_9 && usable (get (current_psa9 card))
          then Ok (get (current_psa9 card), label)
          else if usable (get (current_psa9 card))
          then Ok (get (current_psa9 card), "Graded (est)")
          else raw
      else raw
  | _, _ => Ok (Some 0, "Unknown")
  end.

(** ** The module's own test data *)

Module Tests.

Definition card (slug name : string) (raw : Z) (psa10 psa9 : field) : candidate :=
  Candidate slug (Some name) "" (Int raw) psa10 psa9.

Definition charizard_candidates : list candidate :=
  [ card "715593" "Charizard [1st Edition] #4" 544471 (Int 16818352) (Int 5000000);
    card "715695" "Charizard [Shadowless] #4" 87500 (Int 3010000) (Int 800000);
    card "7307451" "Charizard [Black Dot Error] #4" 47500 Null Null;
    card "630417" "Charizard #4" 33617 (Int 1621607) (Int 500000);
    card "7096109" "Charizard [1999-2000] #4" 32151 (Int 1244922) (Int 400000) ].

Definition pikachu_candidates : list candidate :=
  [ card "889184" "Pikachu [Gold Star] #104" 212291 (Int 2350000) (Int 1000000);
    card "889268" "Pikachu [Reverse Holo] #79" 8469 (Int 127273) (Int 50000);
    card "889159" "Pikachu #79" 551 (Int 16250) (Int 5000) ].

Definition test_cases : list (string * list candidate * string) :=
  [ ("Pokemon Charizard 4/102 Base Set 1st Edition PSA 10 GEM MINT",
     charizard_candidates, "715593");
    ("Charizard Holo 4/102 Base Set Unlimited Pokemon Card",
     charizard_candidates, "630417");
    ("Pokemon Charizard 4/102 Base Set Shadowless PSA 9 MINT",
     charizard_candidates, "715695");
    ("Charizard Base Set 4/102 1999-2000 4th Print UK",
     charizard_candidates, "7096109");
    ("Pokemon Pikachu Gold Star 104/115 Holon Phantoms Near Mint",
     pikachu_candidates, "889184");
    ("Pikachu Reverse Holo 79/115 Holon Phantoms Pokemon",
     pikachu_candidates, "889268");
    ("Pikachu 79/115 Holon Phantoms Pokemon Card",
     pikachu_candidates, "889159");
    ("Pikachu Holon Phantoms PSA 10 79/115",
     pikachu_candidates, "889159") ].

Definition matched_slug (title : string) (candidates : list candidate) : string :=
  match find_best_match (Some title) candidates with
  | Ok (Some best_card, _, _, _) => card_slug best_card
  | _ => "NONE"
  end.

End Tests.

(** ** What a successful match has read

    [spans r a b]: pattern [r] can take the matcher from state [a] to state
    [b].  It forgets priorities, and is what the proofs about captured text
    need. *)

Fixpoint spans (r : Re.regex) (a b : Re.mstate) : Prop :=
  match r with
  | Re.Chr p =>
      exists c, Re.rest a = c :: Re.rest b /\ p c = true /\
                Re.seen b = c :: Re.seen a /\ Re.groups b = Re.groups a
  | Re.Eps => b = a
  | Re.Seq r1 r2 => exists m, spans r1 a m /\ spans r2 m b
  | Re.Alt r1 r2 => spans r1 a b \/ spans r2 a b
  | Re.Star _ r1 => rtc (spans r1) a b
  | Re.WordB => b = a /\ Re.word_boundary a = true
  | Re.Group i r1 => exists m, spans r1 a m /\ b = Re.close_group i a m
  end.

(** The shape of a grade: digits, then possibly a dot and further digits
    (none, one or more). *)
Definition grade_text (s : string) : Prop :=
  exists int_part frac_part : list ascii,
    int_part <> [] /\
    forallb Char.is_digit int_part = true /\
    forallb Char.is_digit frac_part = true /\
    (s = Str.of_chars int_part \/
     s = Str.of_chars (int_part ++ "."%char :: frac_part)).

(** The score of one candidate against a parsed title, as the loop of
    [find_best_match] computes it; [None] when the name does not parse. *)
Definition candidate_score (ebay_parsed : Ebay.parsed) (card : candidate)
  : option (Z * list string) :=
  match parse_card_name (card_name card) with
  | None => None
  | Some card_parsed =>
      match score_match (Some ebay_parsed) (Some card_parsed) with
      | Ok r => Some r
      | Raise _ => None
      end
  end.

(** The test of the base-name gate, as [score_match] evaluates it. *)
Definition passes_gate (ebay_parsed : Ebay.parsed) (card_parsed : Card.parsed)
  : bool :=
  match first_word (Str.lower (Card.base_name card_parsed)) with
  | Ok base_first_word =>
      Str.truthy base_first_word
      && Str.contains base_first_word (Ebay.title_lower ebay_parsed)
  | Raise _ => false
  end.

(** What step 2 of [score_match] adds to the score. *)
Definition number_delta (ebay_parsed : Ebay.parsed) (card_parsed : Card.parsed) : Z :=
  match Card.card_number card_parsed, Ebay.card_number ebay_parsed with
  | Some card_number, Some ebay_number =>
      if Str.truthy card_number && Str.truthy ebay_number then
        if String.eqb (Str.lower (or_else (Str.lstrip_zeros card_number) "0"))
                      (Str.lower (or_else (Str.lstrip_zeros ebay_number) "0"))
        then number_reward else - number_penalty
      else 0
  | _, _ => 0
  end.

Definition parses (card : candidate) : Prop :=
  is_Some (parse_card_name (card_name card)).

Definition rank (c : confidence) : nat :=
  match c with
  | none => 0
  | low => 1
  | medium => 2
  | high => 3
  end.

(** Where a run of digits ends: at the end of the text or before a
    character that is neither a digit nor an underscore. *)
Definition run_stops (r : list ascii) : Prop :=
  match r with
  | [] => True
  | c :: _ => Char.is_digit c = false /\ Ascii.eqb c "_" = false
  end.



(** The statement "with a parseable candidate in the list, the matcher
    returns one of the candidates", at one input. *)
Definition returns_a_candidate (title : option string)
  (candidates : list candidate) : Prop :=
  (exists c, c ∈ candidates /\ parses c) ->
  exists c s b t,
    find_best_match title candidates = Ok (Some c, s, b, t) /\ c ∈ candidates.

(** The keys detected in a title, both registries together. *)
Definition detected_keys (title : string) : list string :=
  match parse_ebay_title (Some title) with
  | Some p => Ebay.value_variants_found p ++ Ebay.cosmetic_variants_found p
  | None => []
  end.

(** The statement "every registered alias can be embedded in a title whose
    detected keys are exactly the key of the alias". *)
Definition alias_round_trip_exact : Prop :=
  forall key aliases alias,
    (key, aliases) ∈ VALUE_VARIANTS ++ COSMETIC_VARIANTS ->
    alias ∈ aliases ->
    exists before after,
      detected_keys (before +:+ alias +:+ after) = [key].

(** Every alias, alone as a title, has its own key detected. *)
Definition every_alias_detects_its_key : bool :=
  forallb (fun '(key, aliases) =>
             forallb (fun alias => mem key (detected_keys alias)) aliases)
          (VALUE_VARIANTS ++ COSMETIC_VARIANTS).

(** ** The rest of the matcher and the code around it *)

(** [re.sub(r, repl, s)] for a pattern that does not match the empty string
    and a replacement without group references. *)
Definition re_sub (r : Re.regex) (repl : string) (s : string) : string :=
  Str.of_chars
    (concat (map (fun x => match x with
                           | inl cs => cs
                           | inr _ => Str.chars repl
                           end) (Re.scan_string r s))).

(** [re.sub('^' + r, '', s)]: without MULTILINE the anchor holds at the start
    of the text only, so at most the match at position 0 is removed. *)
Definition re_sub_at_start (r : Re.regex) (s : string) : string :=
  match Re.match_at r [] (Str.chars s) with
  | Some m => Str.of_chars (Re.rest m)
  | None => s
  end.

(** [" ".join(parts)] *)
Fixpoint join_space (parts : list string) : string :=
  match parts with
  | [] => ""
  | [p] => p
  | p :: ps => p +:+ " " +:+ join_space ps
  end.

(** [s.replace(a, b)] for two one-character strings. *)
Definition replace_char (a b : ascii) (s : string) : string :=
  Str.of_chars (map (fun c => if Ascii.eqb c a then b else c) (Str.chars s)).

(** [s.replace(a, "")] for a one-character string. *)
Definition remove_char (a : ascii) (s : string) : string :=
  Str.of_chars (filter (fun c => c <> a) (Str.chars s)).

Module Identity.
(** The dict returned by [parse_card_identity]. *)
Record t := Make {
  base_name : string;
  card_number : option string;
  value_variants : list string;
  cosmetic_variants : list string;
  set_name : string;
  search_query : string
}.
End Identity.

Module Pat2.
Import Re.

(** [Pokemon\s+] under IGNORECASE (the pattern of [parse_card_identity]
    behind its anchor). *)
Definition pokemon_prefix : regex :=
  Seq (LitNoCase (Str.chars "Pokemon")) (Plus Pat.space).

(** [\s+] *)
Definition spaces : regex := Plus Pat.space.

(** [-+] *)
Definition hyphens : regex := Plus (Pat.ch "-").

(** The class [a-z0-9\s.&'-]. *)
Definition slug_char (c : ascii) : bool :=
  Char.is_lower c || Char.is_digit c || Char.is_space c
  || Ascii.eqb c "." || Ascii.eqb c "&" || Ascii.eqb c "'" || Ascii.eqb c "-".

(** [[^a-z0-9\s.&'-]] *)
Definition not_slug_char : regex := Chr (fun c => negb (slug_char c)).

End Pat2.

(** The original bracket text for a variant: the first tag that holds it. *)
Definition original_tag (tags : list string) (var : string) : option string :=
  find (fun tag => Str.contains var (Str.lower tag)) tags.

(** The list [parts] of [parse_card_identity]. *)
Definition query_parts (card_name : string) (parsed : Card.parsed)
  (clean_set : string) : list string :=
  ["Pokemon"; Card.base_name parsed]
  ++ omap (original_tag (Re.findall1 Pat.tag card_name)) (Card.value_variants parsed)
  ++ (if Str.truthy clean_set then [clean_set] else [])
  ++ (if truthy_opt (Card.card_number parsed)
      then [default "" (Card.card_number parsed)] else []).

Definition parse_card_identity (card_name set_name : option string)
  : option Identity.t :=
  match card_name with
  | None => None
  | Some card_name =>
    if negb (Str.truthy card_name) then None else
    match parse_card_name (Some card_name) with
    | None => None
    | Some parsed =>
        let clean_set := default "" set_name in
        let clean_set := Str.strip (re_sub_at_start Pat2.pokemon_prefix clean_set) in
        let parts := query_parts card_name parsed clean_set in
        let search_query := Str.strip (re_sub Pat2.spaces " " (join_space parts)) in
        Some (Identity.Make (Card.base_name parsed) (Card.card_number parsed)
                (Card.value_variants parsed) (Card.cosmetic_variants parsed)
                clean_set search_query)
    end
  end.

(** [build_search_query] of the scraper. *)
Definition build_search_query (card_name set_name : option string) : option string :=
  if negb (truthy_opt card_name) then None else
  Identity.search_query <$> parse_card_identity card_name set_name.

(** The indexing loop of [load_all_card_trends], on the cards fetched: the
    cards are grouped by set name, each group in the order of the input.  Set
    names are strings here; a null set name would be one more key. *)
Definition index_by_set (all_cards : list candidate) : gmap string (list candidate) :=
  foldl (fun by_set card =>
           <[set_name card := default [] (by_set !! set_name card) ++ [card]]> by_set)
        ∅ all_cards.

(** The test of the filter of [find_candidates]. *)
Definition same_base_name (base_name_lower : string) (c : candidate) : bool :=
  match parse_card_name (card_name c) with
  | Some c_parsed => String.eqb (Str.lower (Card.base_name c_parsed)) base_name_lower
  | None => false
  end.

Definition find_candidates (card : candidate)
  (all_by_set : gmap string (list candidate)) : list candidate :=
  match parse_card_name (card_name card) with
  | None => []
  | Some parsed =>
      let base_name_lower := Str.lower (Card.base_name parsed) in
      let set_cards := default [] (all_by_set !! set_name card) in
      List.filter (same_base_name base_name_lower) set_cards
  end.


(** [build_url] of the price scraper: the two slugs and the URL. *)
Definition console_slug (console_name : string) : string :=
  replace_char "&" "&" (replace_char " " "-" (Str.lower console_name)).

Definition product_slug (product_name : string) : string :=
  let slug := Str.lower product_name in
  let slug := remove_char "]" (remove_char "[" slug) in
  let slug := remove_char "#" slug in
  let slug := Re.sub_empty Pat2.not_slug_char slug in
  let slug := Str.strip slug in
  let slug := re_sub Pat2.spaces "-" slug in
  re_sub Pat2.hyphens "-" slug.

Definition build_url (console_name product_name : string) : string :=
  "https://www.pricecharting.com/game/" +:+ console_slug console_name
  +:+ "/" +:+ product_slug product_name.

(** The texts a pattern can read, groups and word boundaries left aside. *)
Fixpoint lang (r : Re.regex) (t : list ascii) : Prop :=
  match r with
  | Re.Chr p => exists c, t = [c] /\ p c = true
  | Re.Eps => t = []
  | Re.Seq r1 r2 => exists t1 t2, t = t1 ++ t2 /\ lang r1 t1 /\ lang r2 t2
  | Re.Alt r1 r2 => lang r1 t \/ lang r2 t
  | Re.Star _ r1 => exists ts, t = concat ts /\ Forall (lang r1) ts
  | Re.WordB => t = []
  | Re.Group _ r1 => lang r1 t
  end.

Fixpoint no_groups (r : Re.regex) : bool :=
  match r with
  | Re.Chr _ | Re.Eps | Re.WordB => true
  | Re.Seq r1 r2 | Re.Alt r1 r2 => no_groups r1 && no_groups r2
  | Re.Star _ r1 => no_groups r1
  | Re.Group _ _ => false
  end.

(** Letters and digits, with at least one digit: the shape of an item number
    taken from a title. *)
Definition item_number_text (s : string) : bool :=
  forallb (fun c => Char.is_alpha c || Char.is_digit c) (Str.chars s)
  && existsb Char.is_digit (Str.chars s).

(** An alias of [key] in [registry] occurs in the lowercased title. *)
Definition alias_occurs (registry : list (string * list string))
  (key title_lower : string) : Prop :=
  exists aliases alias,
    (key, aliases) ∈ registry /\ alias ∈ aliases /\
    Str.contains (Str.lower alias) title_lower = true.

(** No white space at either end. *)
Definition trimmed (s : string) : bool :=
  match Str.chars s with
  | [] => true
  | c :: _ => negb (Char.is_space c)
  end
  && match rev (Str.chars s) with
     | [] => true
     | c :: _ => negb (Char.is_space c)
     end.

(** Not empty and free of white space. *)
Definition one_word (s : string) : bool :=
  Str.truthy s && forallb (fun c => negb (Char.is_space c)) (Str.chars s).

(** The bracket tags of a catalog name, as [parse_card_name] collects them. *)
Definition all_tags (card_name : string) : list string :=
  Re.findall1 Pat.tag card_name.


(** The two parsed records agree on the item number: both carry one and the
    two are equal once leading zeros and case are set aside. *)
Definition numbers_agree (ebay_parsed : Ebay.parsed) (card_parsed : Card.parsed)
  : bool :=
  match Card.card_number card_parsed, Ebay.card_number ebay_parsed with
  | Some card_number, Some ebay_number =>
      Str.truthy card_number && Str.truthy ebay_number
      && String.eqb (Str.lower (or_else (Str.lstrip_zeros card_number) "0"))
                    (Str.lower (or_else (Str.lstrip_zeros ebay_number) "0"))
  | _, _ => false
  end.

(** The score and the tier in the result of [find_best_match]. *)
Definition result_score
  (r : result (option candidate * Z * list string * confidence)) : option Z :=
  match r with
  | Ok (_, s, _, _) => Some s
  | Raise _ => None
  end.

Definition result_tier
  (r : result (option candidate * Z * list string * confidence)) : option confidence :=
  match r with
  | Ok (_, _, _, t) => Some t
  | Raise _ => None
  end.

(** What substituting [repl] for every run of characters of class [p] does,
    written directly: [in_run] tells that the previous character was in the
    class. *)
Fixpoint collapse_runs (p : ascii -> bool) (repl : list ascii) (in_run : bool)
  (l : list ascii) : list ascii :=
  match l with
  | [] => []
  | c :: l' =>
      if p c then (if in_run then [] else repl) ++ collapse_runs p repl true l'
      else c :: collapse_runs p repl false l'
  end.

(** No two neighbours are both in the class [p]. *)
Fixpoint no_adjacent (p : ascii -> bool) (l : list ascii) : bool :=
  match l with
  | a :: l' =>
      match l' with
      | b :: _ => negb (p a && p b)
      | [] => true
      end && no_adjacent p l'
  | [] => true
  end.

(** White space occurs only as single blanks between other characters. *)
Definition single_spaced (s : string) : bool :=
  trimmed s
  && no_adjacent Char.is_space (Str.chars s)
  && forallb (fun c => implb (Char.is_space c) (Ascii.eqb c " ")) (Str.chars s).

(** The characters of a URL slug: [a-z0-9.&'-]. *)
Definition url_char (c : ascii) : bool :=
  Char.is_lower c || Char.is_digit c
  || Ascii.eqb c "." || Ascii.eqb c "&" || Ascii.eqb c "'" || Ascii.eqb c "-".

(** ** The fair-value rule of the deal detector ([detect_deals.py]) *)

(** [x >= 10] after rounding: 10 is a binary64 number with an even
    significand and its predecessor is [10 - 2^-49], so a literal rounds to
    10 or more exactly when it is at least [10 - 2^-50]. *)
Definition float_ge10 (x : Float.literal) : bool :=
  match x with
  | Float.NaN => false
  | Float.Inf negative => negb negative
  | Float.Dec true _ _ => false
  | Float.Dec false m e =>
      let bound := 10 * 2 ^ 50 - 1 in
      if 0 <=? e then bound <=? m * 10 ^ e * 2 ^ 50
      else bound * 10 ^ (- e) <=? m * 2 ^ 50
  end.

(** The label of [get_fair_value_for_condition].  One of its labels is an
    f-string that prints the grade as a float; it is kept as the grade
    itself, not printed. *)
Inductive value_type :=
| Label (s : string)
| RawNoDataForGrade (grade_num : Float.literal).

Definition grading_companies : list string :=
  ["psa"; "cgc"; "bgs"; "sgc"; "ace"; "ags"; "tag"; "gma"; "mnt"].

(** The pattern that reads the grade in a condition: one group around
    [\d+\.?\d*]. *)
Definition condition_grade : Re.regex := Re.Group 1 Pat.grade_digits.

Definition get_fair_value_for_condition (trend : candidate)
  (condition_str : option string) : result (option Z * value_type) :=
  let condition_str := Str.strip (default "" condition_str) in
  let condition_lower := Str.lower condition_str in
  let is_graded :=
    existsb (fun co => Str.contains co condition_lower) grading_companies
    || String.eqb condition_lower "graded" in
  let raw := get_default (current_raw trend) 0 in
  if negb is_graded then Ok (raw, Label "Raw") else
  match Re.search condition_grade condition_str with
  | Some grade_match =>
      match Float.parse (default "" (Re.group 1 grade_match)) with
      | None => Raise ValueError
      | Some grade_num =>
          if float_ge10 grade_num && usable (get (current_psa10 trend))
          then Ok (get (current_psa10 trend), Label "PSA 10")
          else if Float.ge9 grade_num && usable (get (current_psa9 trend))
          then Ok (get (current_psa9 trend), Label "PSA 9")
          else Ok (raw, RawNoDataForGrade grade_num)
      end
  | None => Ok (raw, Label "Raw (grade unknown)")
  end.

(** The condition text that [process_listing] stores with a listing. *)
Definition condition_of (ebay_parsed : Ebay.parsed) : string :=
  if Ebay.is_graded ebay_parsed
     && truthy_opt (Ebay.grading_company ebay_parsed)
     && truthy_opt (Ebay.grade_number ebay_parsed)
  then default "" (Ebay.grading_company ebay_parsed) +:+ " "
       +:+ default "" (Ebay.grade_number ebay_parsed)
  else if Ebay.is_graded ebay_parsed then "Graded"
  else "Ungraded".

(** The longest prefix of characters of class [p]. *)
Fixpoint run_of (p : ascii -> bool) (l : list ascii) : list ascii :=
  match l with
  | c :: l' => if p c then c :: run_of p l' else []
  | [] => []
  end.

(** The value in a result (value, label). *)
Definition result_value {A B} (r : result (A * B)) : option A :=
  match r with
  | Ok (v, _) => Some v
  | Raise _ => None
  end.

(** * Facts *)

#[global] Instance Ok_inj {A : Type} : Inj (=) (=) (@Ok A).
Proof. intros x y H. congruence. Qed.

Section StringFacts.

Lemma chars_of_chars (l : list ascii) : Str.chars (Str.of_chars l) = l.
Proof. apply list_ascii_of_string_of_list_ascii. Qed.

Lemma of_chars_chars (s : string) : Str.of_chars (Str.chars s) = s.
Proof. apply string_of_list_ascii_of_string. Qed.

Lemma truthy_of_chars (l : list ascii) :
  Str.truthy (Str.of_chars l) = match l with [] => false | _ => true end.
Proof. destruct l; reflexivity. Qed.


Lemma lstrip_by_head p c l : p c = false -> Str.lstrip_by p (c :: l) = c :: l.
Proof. intros H. simpl. rewrite H. reflexivity. Qed.

Lemma lstrip_by_none p l :
  forallb (fun c => negb (p c)) l = true -> Str.lstrip_by p l = l.
Proof.
  destruct l as [|c l]; [reflexivity|].
  simpl. intros H. apply andb_prop in H as [H _].
  apply negb_true_iff in H. rewrite H. reflexivity.
Qed.

Lemma rstrip_by_none p l :
  forallb (fun c => negb (p c)) l = true -> Str.rstrip_by p l = l.
Proof.
  intros H. unfold Str.rstrip_by.
  rewrite lstrip_by_none; [apply rev_involutive|].
  rewrite forallb_forall in *. intros c Hc. apply H.
  apply in_rev. exact Hc.
Qed.

Lemma lstrip_by_all p ds r :
  forallb p ds = true -> Str.lstrip_by p (ds ++ r) = Str.lstrip_by p r.
Proof.
  induction ds as [|d ds IH]; [reflexivity|].
  simpl. intros H. apply andb_prop in H as [Hd Hds].
  rewrite Hd. auto.
Qed.

(** What [lstrip_by] returns is empty or starts with a character that stays. *)
Lemma lstrip_by_starts p l :
  match Str.lstrip_by p l with
  | [] => True
  | c :: _ => p c = false
  end.
Proof.
  induction l as [|c l IH]; simpl; [exact I|].
  destruct (p c) eqn:E; [exact IH | exact E].
Qed.

Lemma starts_with_app p l : Str.starts_with p (p ++ l) = true.
Proof.
  induction p as [|a p IH]; [reflexivity|].
  simpl. rewrite Ascii.eqb_refl. exact IH.
Qed.

Lemma contains_chars_unfold p l :
  Str.contains_chars p l =
  Str.starts_with p l ||
  match l with [] => false | _ :: l' => Str.contains_chars p l' end.
Proof. destruct l; reflexivity. Qed.

Lemma contains_chars_app p x y : Str.contains_chars p (x ++ p ++ y) = true.
Proof.
  induction x as [|a x IH].
  - simpl app. rewrite contains_chars_unfold, starts_with_app. reflexivity.
  - simpl. rewrite IH. apply orb_true_r.
Qed.

Lemma chars_append (s t : string) :
  Str.chars (s +:+ t) = Str.chars s ++ Str.chars t.
Proof. induction s as [|c s IH]; simpl; [reflexivity | by rewrite IH]. Qed.

Lemma of_chars_app (a b : list ascii) :
  Str.of_chars (a ++ b) = Str.of_chars a +:+ Str.of_chars b.
Proof. induction a as [|c a IH]; simpl; [reflexivity | by rewrite IH]. Qed.

Lemma lower_append (s t : string) :
  Str.lower (s +:+ t) = Str.lower s +:+ Str.lower t.
Proof. unfold Str.lower. by rewrite chars_append, map_app, of_chars_app. Qed.

End StringFacts.

(** ** The matcher only answers with states the pattern spans *)

Section MatcherFacts.
Import Re.

Lemma orelse_Some {A} (x : option A) (y : unit -> option A) (a : A) :
  orelse x y = Some a -> x = Some a \/ y tt = Some a.
Proof. destruct x; simpl; auto. Qed.

Lemma rmatch_sound (r : regex) :
  forall st k m, rmatch r st k = Some m ->
  exists st', spans r st st' /\ k st' = Some m.
Proof.
  induction r as [p| |r1 IH1 r2 IH2|r1 IH1 r2 IH2|g r1 IH1| |i r1 IH1];
    intros st k m H; simpl in H.
  - destruct st as [sn [|c tl] gs]; simpl in H; [discriminate|].
    destruct (p c) eqn:Hp; [|discriminate].
    eexists. split; [|exact H]. exists c. simpl. auto.
  - exists st. split; [reflexivity | exact H].
  - apply IH1 in H as (st1 & H1 & H).
    apply IH2 in H as (st2 & H2 & H).
    exists st2. split; [exists st1; auto | exact H].
  - apply orelse_Some in H as [H|H].
    + apply IH1 in H as (st' & H1 & H). exists st'. simpl. auto.
    + apply IH2 in H as (st' & H2 & H). exists st'. simpl. auto.
  - revert H. generalize (length (rest st)). intros n. revert st.
    induction n as [|n IHn]; intros st H.
    + exists st. split; [apply rtc_refl | exact H].
    + assert (Hiter : forall st0,
        rmatch r1 st0 (fun st' =>
          if (length (rest st') <? length (rest st0))%nat
          then (fix loop (n : nat) (st : mstate) {struct n} : option mstate :=
                  match n with
                  | O => k st
                  | S n' =>
                      if g
                      then orelse
                             (rmatch r1 st (fun st' =>
                                if (length (rest st') <? length (rest st))%nat
                                then loop n' st' else None))
                             (fun _ => k st)
                      else orelse (k st)
                             (fun _ => rmatch r1 st (fun st' =>
                                if (length (rest st') <? length (rest st))%nat
                                then loop n' st' else None))
                  end) n st'
          else None) = Some m ->
        exists st', rtc (spans r1) st0 st' /\ k st' = Some m).
      { intros st0 H0. apply IH1 in H0 as (st1 & H1 & H0).
        destruct (length (rest st1) <? length (rest st0))%nat; [|discriminate].
        apply IHn in H0 as (st' & Hrtc & H0).
        exists st'. split; [eapply rtc_l; eauto | exact H0]. }
      destruct g; apply orelse_Some in H as [H|H].
      * apply Hiter, H.
      * exists st. split; [apply rtc_refl | exact H].
      * exists st. split; [apply rtc_refl | exact H].
      * apply Hiter, H.
  - destruct (word_boundary st) eqn:Hb; [|discriminate].
    exists st. simpl. auto.
  - apply IH1 in H as (st1 & H1 & H).
    eexists. split; [exists st1; split; [exact H1 | reflexivity] | exact H].
Qed.

Lemma match_at_spans r before after m :
  match_at r before after = Some m -> spans r (MState before after []) m.
Proof.
  intros H. apply rmatch_sound in H as (st' & H & E).
  injection E as <-. exact H.
Qed.

Lemma search_from_spans r after :
  forall before m, search_from r before after = Some m ->
  exists before' after', spans r (MState before' after' []) m.
Proof.
  induction after as [|c after IH]; intros before m H; simpl in H.
  - destruct (match_at r before []) eqn:E; [|discriminate].
    injection H as <-. eauto using match_at_spans.
  - destruct (match_at r before (c :: after)) eqn:E.
    + injection H as <-. eauto using match_at_spans.
    + eauto.
Qed.

(** A run of characters of one class. *)
Lemma spans_star_chr g p a b :
  spans (Star g (Chr p)) a b ->
  exists t, forallb p t = true /\ seen b = rev t ++ seen a.
Proof.
  simpl. induction 1 as [a|a m b (c & _ & Hp & Hs & _) _ (t & Ht & IH)].
  - exists []. auto.
  - exists (c :: t). split; [simpl; by rewrite Hp|].
    rewrite IH, Hs. simpl. by rewrite <- app_assoc.
Qed.

Lemma text_between_app a b t :
  seen b = rev t ++ seen a -> text_between a b = t.
Proof.
  intros H. unfold text_between. rewrite H, length_app.
  replace (length (rev t) + length (seen a) - length (seen a))%nat
    with (length (rev t)) by lia.
  rewrite take_app_length. apply rev_involutive.
Qed.

(** The text read by [\d+\.?\d*]. *)
Lemma spans_grade_digits a b :
  spans Pat.grade_digits a b ->
  exists t, seen b = rev t ++ seen a /\ grade_text (Str.of_chars t).
Proof.
  intros (m1 & ((m0 & (c & _ & Hc & Hs0 & _) & Hplus) & (m2 & Hdot & Hstar))).
  apply spans_star_chr in Hplus as (t1 & Ht1 & Hs1).
  apply spans_star_chr in Hstar as (t2 & Ht2 & Hs2).
  destruct Hdot as [(d & _ & Hd & Hsd & _)| ->].
  - apply Ascii.eqb_eq in Hd. subst d.
    exists ((c :: t1) ++ "."%char :: t2). split.
    + rewrite Hs2, Hsd, Hs1, Hs0.
      repeat (simpl; rewrite ?rev_app_distr, <- ?app_assoc). reflexivity.
    + exists (c :: t1), t2. simpl. rewrite Hc, Ht1. auto.
  - exists (c :: t1 ++ t2). split.
    + rewrite Hs2, Hs1, Hs0.
      repeat (simpl; rewrite ?rev_app_distr, <- ?app_assoc). reflexivity.
    + exists (c :: t1 ++ t2), []. simpl.
      rewrite Hc, forallb_app, Ht1, Ht2. auto.
Qed.

(** Whatever [re.search] finds for the grade pattern, its second group has
    the shape of a grade (and its first group is set). *)
Lemma grade_match_group2 (title : string) (m : mstate) :
  search Pat.grade title = Some m ->
  exists g, group 2 m = Some g /\ grade_text g.
Proof.
  intros H. apply search_from_spans in H as (before & after & H).
  destruct H as (m1 & _ & m2 & _ & m3 & _ & m4 & (m5 & Hd & ->) & (-> & _)).
  apply spans_grade_digits in Hd as (t & Hs & Ht).
  exists (Str.of_chars t). split; [|exact Ht].
  unfold group. simpl. by rewrite (text_between_app _ _ t).
Qed.

End MatcherFacts.

(** ** [float] accepts every grade *)

Section FloatFacts.

Lemma digit_facts (c : ascii) :
  Char.is_digit c = true ->
  Float.is_c_space c = false /\ Float.sign [c] = (false, [c]) /\
  Ascii.eqb c "_" = false /\ Ascii.eqb c "." = false /\
  Char.lower c = c /\ Ascii.eqb c "i" = false /\ Ascii.eqb c "n" = false.
Proof.
  destruct c as [[] [] [] [] [] [] [] []]; vm_compute; intros H;
    try discriminate H; repeat split.
Qed.

Lemma sign_digit c l :
  Char.is_digit c = true -> Float.sign (c :: l) = (false, c :: l).
Proof.
  destruct c as [[] [] [] [] [] [] [] []]; vm_compute; intros H;
    try discriminate H; reflexivity.
Qed.

Lemma digits_no_space ds :
  forallb Char.is_digit ds = true ->
  forallb (fun c => negb (Float.is_c_space c)) ds = true.
Proof.
  rewrite !forallb_forall. intros H c Hc.
  destruct (digit_facts c (H c Hc)) as (-> & _). reflexivity.
Qed.

Lemma digit_run_app ds r :
  forallb Char.is_digit ds = true -> run_stops r ->
  Float.digit_run (ds ++ r) = (ds, r).
Proof.
  intros Hds Hr. induction ds as [|d ds IH].
  - destruct r as [|c r]; [reflexivity|].
    destruct Hr as [Hd Hu]. simpl. rewrite Hd, Hu. reflexivity.
  - simpl. simpl in Hds. apply andb_prop in Hds as [-> Hds].
    rewrite (IH Hds). reflexivity.
Qed.

Lemma digitpart_app ds r :
  forallb Char.is_digit ds = true -> run_stops r ->
  Float.digitpart (ds ++ r) = (ds, r).
Proof.
  intros Hds Hr. destruct ds as [|d ds].
  - destruct r as [|c r]; [reflexivity|].
    destruct Hr as [Hd _]. simpl. rewrite Hd. reflexivity.
  - simpl. simpl in Hds. apply andb_prop in Hds as [-> Hds].
    rewrite (digit_run_app ds r Hds Hr). reflexivity.
Qed.

Lemma not_special_word c l w :
  Char.is_digit c = true ->
  (w = "inf" \/ w = "infinity" \/ w = "nan") ->
  String.eqb (Str.of_chars (map Char.lower (c :: l))) w = false.
Proof.
  intros Hc Hw. simpl.
  destruct (digit_facts c Hc) as (_ & _ & _ & _ & -> & Hi & Hn).
  destruct Hw as [-> | [-> | ->]]; simpl; by rewrite ?Hi, ?Hn.
Qed.

Lemma parse_digits_dot int_part tail :
  int_part <> [] ->
  forallb Char.is_digit int_part = true ->
  (tail = [] \/ exists frac_part, tail = "."%char :: frac_part /\
                    forallb Char.is_digit frac_part = true) ->
  exists m e, Float.parse (Str.of_chars (int_part ++ tail)) = Some (Float.Dec false m e).
Proof.
  intros Hne Hint Htail.
  assert (Hclean : forallb (fun c => negb (Float.is_c_space c)) (int_part ++ tail) = true).
  { rewrite forallb_app, (digits_no_space _ Hint). simpl.
    destruct Htail as [-> | (fp & -> & Hfp)]; [reflexivity|].
    simpl. apply (digits_no_space _ Hfp). }
  assert (Hstop : run_stops tail).
  { destruct Htail as [-> | (fp & -> & _)]; simpl; auto. }
  unfold Float.parse.
  rewrite chars_of_chars, (rstrip_by_none _ _ Hclean), (lstrip_by_none _ _ Hclean).
  destruct int_part as [|c ds]; [congruence|].
  pose proof Hint as Hc. simpl in Hc. apply andb_prop in Hc as [Hc _].
  change ((c :: ds) ++ tail) with (c :: (ds ++ tail)).
  rewrite (sign_digit _ _ Hc).
  rewrite !not_special_word by auto. simpl orb. cbv iota.
  change (c :: (ds ++ tail)) with ((c :: ds) ++ tail).
  rewrite (digitpart_app _ _ Hint Hstop).
  destruct Htail as [-> | (fp & -> & Hfp)].
  - simpl. eauto.
  - pose proof (digitpart_app fp [] Hfp I) as Hf.
    rewrite app_nil_r in Hf. rewrite Hf. simpl. eauto.
Qed.


Lemma grade_text_truthy g : grade_text g -> Str.truthy g = true.
Proof.
  intros (ip & fp & Hne & _ & _ & [-> | ->]);
    destruct ip; [congruence | reflexivity | congruence | reflexivity].
Qed.

End FloatFacts.

(** ** The parsers *)

Section ParserFacts.

Lemma parse_ebay_title_eq (title : string) :
  parse_ebay_title (Some title) =
  if Str.truthy title then
    Some (Ebay.Parsed (Str.lower title) (extract_card_number title)
            (grading_info title (Str.lower title)).1.1
            (grading_info title (Str.lower title)).1.2
            (grading_info title (Str.lower title)).2
            (detect_variants VALUE_VARIANTS (Str.lower title))
            (detect_cosmetic (Str.lower title)))
  else None.
Proof.
  unfold parse_ebay_title.
  destruct (Str.truthy title); simpl negb; cbv iota; [|reflexivity].
  destruct (grading_info _ _) as [[gc gn] ig]. reflexivity.
Qed.

Lemma parse_ebay_title_None (title : option string) :
  parse_ebay_title title = None <-> title = None \/ title = Some "".
Proof.
  split.
  - destruct title as [[|c s]|]; auto.
    rewrite parse_ebay_title_eq. discriminate.
  - intros [-> | ->]; reflexivity.
Qed.

Lemma parse_ebay_title_Some (title : string) (p : Ebay.parsed) :
  parse_ebay_title (Some title) = Some p ->
  Str.truthy title = true /\
  Ebay.title_lower p = Str.lower title /\
  (Ebay.grading_company p, Ebay.grade_number p, Ebay.is_graded p)
    = grading_info title (Str.lower title) /\
  Ebay.value_variants_found p = detect_variants VALUE_VARIANTS (Str.lower title) /\
  Ebay.cosmetic_variants_found p = detect_cosmetic (Str.lower title).
Proof.
  rewrite parse_ebay_title_eq.
  destruct (Str.truthy title); [|discriminate].
  intros H. apply (inj Some) in H. rewrite <- H.
  cbn [Ebay.title_lower Ebay.grading_company Ebay.grade_number Ebay.is_graded
       Ebay.value_variants_found Ebay.cosmetic_variants_found].
  destruct (grading_info _ _) as [[gc gn] ig]. repeat split; reflexivity.
Qed.



Lemma parse_card_name_None (name : option string) :
  parse_card_name name = None <-> name = None \/ name = Some "".
Proof.
  split.
  - destruct name as [[|c s]|]; auto.
    unfold parse_card_name. simpl negb. cbv iota.
    destruct (classify_tags _ _ _). discriminate.
  - intros [-> | ->]; reflexivity.
Qed.

Lemma parse_card_name_base (name : option string) (c : Card.parsed) :
  parse_card_name name = Some c ->
  exists s, Card.base_name c = Str.strip s.
Proof.
  destruct name as [name|]; [|discriminate].
  unfold parse_card_name.
  destruct (Str.truthy name); simpl negb; cbv iota; [|discriminate].
  destruct (classify_tags _ _ _). intros H. apply (inj Some) in H.
  rewrite <- H. cbn [Card.base_name]. eauto.
Qed.

Lemma is_space_lower c : Char.is_space (Char.lower c) = Char.is_space c.
Proof. destruct c as [[] [] [] [] [] [] [] []]; reflexivity. Qed.

Lemma split_go_cur cur l : cur <> [] -> Str.split_go cur l <> [].
Proof.
  revert cur. induction l as [|c l IH]; intros cur H; simpl.
  - destruct cur; [congruence | discriminate].
  - destruct (Char.is_space c).
    + destruct cur; [congruence | discriminate].
    + apply IH. discriminate.
Qed.

(** On a stripped name, [split()[0]] is there whenever the name is not empty. *)
Lemma first_word_strip (s : string) :
  exists w, first_word (Str.lower (Str.strip s)) = Ok w.
Proof.
  unfold first_word, Str.lower, Str.strip, Str.split, Str.strip_chars.
  rewrite !chars_of_chars.
  pose proof (lstrip_by_starts Char.is_space
                (Str.rstrip_by Char.is_space (Str.chars s))) as H.
  destruct (Str.lstrip_by _ _) as [|c l]; simpl; [eauto|].
  rewrite is_space_lower, H.
  destruct (Str.split_go [Char.lower c] (map Char.lower l)) eqn:E; [|eauto].
  exfalso. revert E. apply split_go_cur. discriminate.
Qed.

Lemma score_match_parsed (e : Ebay.parsed) (name : option string) (c : Card.parsed) :
  parse_card_name name = Some c ->
  exists s b, score_match (Some e) (Some c) = Ok (s, b).
Proof.
  intros H. apply parse_card_name_base in H as (s & Hs).
  unfold score_match. rewrite Hs.
  destruct (first_word_strip s) as (w & ->).
  unfold mbind, result_bind.
  destruct (_ && _).
  - destruct (score_after_gate _ _ _) as [sc b]. eauto.
  - eauto.
Qed.

End ParserFacts.

(** ** The scorer *)

Section ScorerFacts.

Lemma tally_fst delta reason (vars : gset string) acc :
  (tally delta reason vars acc).1 = acc.1 + delta * Z.of_nat (size vars).
Proof.
  unfold tally, size, set_size. simpl.
  generalize (elements vars). intros l. revert acc.
  induction l as [|v l IH]; intros [s b]; simpl.
  - lia.
  - rewrite IH. simpl. lia.
Qed.

Lemma score_after_gate_fst e c s0 b0 :
  (score_after_gate e c (s0, b0)).1 =
  let cv : gset string := list_to_set (Card.value_variants c) in
  let ev : gset string := list_to_set (Ebay.value_variants_found e) in
  let cc : gset string := list_to_set (Card.cosmetic_variants c) in
  let ec : gset string := list_to_set (Ebay.cosmetic_variants_found e) in
  s0 + number_delta e c
  + value_match_reward * Z.of_nat (size (cv ∩ ev))
  - value_mismatch_penalty * Z.of_nat (size (cv ∖ ev))
  - value_mismatch_penalty * Z.of_nat (size (ev ∖ cv))
  + cosmetic_match_reward * Z.of_nat (size (cc ∩ ec))
  - cosmetic_mismatch_penalty * Z.of_nat (size (cc ∖ ec))
  - cosmetic_mismatch_penalty * Z.of_nat (size (ec ∖ cc)).
Proof.
  unfold score_after_gate. cbv zeta.
  set (step2 := match Card.card_number c with Some _ => _ | None => _ end).
  assert (H2 : step2.1 = s0 + number_delta e c).
  { unfold step2, number_delta.
    destruct (Card.card_number c) as [cn|], (Ebay.card_number e) as [en|];
      simpl; try lia.
    destruct (Str.truthy cn && Str.truthy en); simpl; [|lia].
    destruct (String.eqb _ _); simpl; lia. }
  destruct step2 as [s2 b2]. simpl in H2. subst s2.
  rewrite !tally_fst. simpl fst. lia.
Qed.

Lemma split_truthy s w ws : Str.split s = w :: ws -> Str.truthy s = true.
Proof. destruct s; [discriminate | reflexivity]. Qed.

Lemma first_word_split s w ws : Str.split s = w :: ws -> first_word s = Ok w.
Proof.
  intros H. unfold first_word. rewrite (split_truthy _ _ _ H), H. reflexivity.
Qed.

Lemma score_match_gate e c :
  score_match (Some e) (Some c) =
  match first_word (Str.lower (Card.base_name c)) with
  | Ok w =>
      if passes_gate e c
      then Ok (score_after_gate e c (20, ["+20 name " +:+ quote w]))
      else Ok (-100, ["-100 name " +:+ quote w +:+ " NOT FOUND"])
  | Raise x => Raise x
  end.
Proof.
  unfold score_match, passes_gate, mbind, result_bind.
  destruct (first_word _); reflexivity.
Qed.

End ScorerFacts.

(** ** The matcher *)

Section MatcherLoop.

Variable e : Ebay.parsed.

Lemma candidate_score_parses card :
  is_Some (candidate_score e card) <-> parses card.
Proof.
  unfold candidate_score, parses.
  destruct (parse_card_name (card_name card)) as [cp|] eqn:E.
  - destruct (score_match_parsed e _ _ E) as (s & b & ->).
    split; eauto.
  - split; intros []; discriminate.
Qed.

Lemma consider_step (acc : best) card :
  consider e (Ok acc) card =
  Ok (match candidate_score e card with
      | Some (score, breakdown) =>
          if acc.1.2 <? score then (Some card, score, breakdown) else acc
      | None => acc
      end).
Proof.
  destruct acc as [[bc bs] bb].
  unfold consider, candidate_score, mbind, result_bind.
  destruct (parse_card_name (card_name card)) as [cp|] eqn:E; [|reflexivity].
  destruct (score_match_parsed e _ _ E) as (s & b & ->).
  simpl. destruct (bs <? s); reflexivity.
Qed.

(** The loop either keeps its initial state, no candidate scoring above it,
    or ends on the first candidate that reaches the highest score. *)
Lemma best_fold (candidates : list candidate) :
  forall acc : best,
  (foldl (consider e) (Ok acc) candidates = Ok acc /\
   forall c s b, c ∈ candidates -> candidate_score e c = Some (s, b) ->
                 s <= acc.1.2)
  \/
  (exists l1 c l2 s b,
     candidates = l1 ++ c :: l2 /\
     foldl (consider e) (Ok acc) candidates = Ok (Some c, s, b) /\
     candidate_score e c = Some (s, b) /\
     acc.1.2 < s /\
     (forall c' s' b', c' ∈ l1 -> candidate_score e c' = Some (s', b') -> s' < s) /\
     (forall c' s' b', c' ∈ l2 -> candidate_score e c' = Some (s', b') -> s' <= s)).
Proof.
  induction candidates as [|c0 rest IH]; intros acc.
  - left. split; [reflexivity|]. intros c s b Hc. inversion Hc.
  - cbn [foldl]. rewrite consider_step.
    destruct (candidate_score e c0) as [[s0 b0]|] eqn:E0.
    + destruct (acc.1.2 <? s0) eqn:Hlt.
      * apply Z.ltb_lt in Hlt.
        destruct (IH (Some c0, s0, b0)) as [[Hf Hle] | (l1 & c & l2 & s & b & -> & Hf & Hc & Hgt & H1 & H2)].
        -- right. exists [], c0, rest, s0, b0. simpl in Hle.
           repeat split; auto.
           intros c' s' b' Hin. inversion Hin.
        -- right. exists (c0 :: l1), c, l2, s, b. simpl in Hgt.
           repeat split; auto; try lia.
           intros c' s' b' Hin Hs. apply elem_of_cons in Hin as [-> | Hin].
           ++ rewrite E0 in Hs. injection Hs as <- <-. lia.
           ++ eauto.
      * apply Z.ltb_ge in Hlt.
        destruct (IH acc) as [[Hf Hle] | (l1 & c & l2 & s & b & -> & Hf & Hc & Hgt & H1 & H2)].
        -- left. split; [exact Hf|].
           intros c s b Hin Hs. apply elem_of_cons in Hin as [-> | Hin].
           ++ rewrite E0 in Hs. injection Hs as <- <-. lia.
           ++ eauto.
        -- right. exists (c0 :: l1), c, l2, s, b.
           repeat split; auto.
           intros c' s' b' Hin Hs. apply elem_of_cons in Hin as [-> | Hin].
           ++ rewrite E0 in Hs. injection Hs as <- <-. lia.
           ++ eauto.
    + destruct (IH acc) as [[Hf Hle] | (l1 & c & l2 & s & b & -> & Hf & Hc & Hgt & H1 & H2)].
      * left. split; [exact Hf|].
        intros c s b Hin Hs. apply elem_of_cons in Hin as [-> | Hin].
        -- congruence.
        -- eauto.
      * right. exists (c0 :: l1), c, l2, s, b.
        repeat split; auto.
        intros c' s' b' Hin Hs. apply elem_of_cons in Hin as [-> | Hin].
        -- congruence.
        -- eauto.
Qed.

End MatcherLoop.

Section MatcherResult.

(** [find_best_match] always returns: an early sentinel when the title does
    not parse, else the state of the loop with the tier of its score. *)
Lemma find_best_match_returns title candidates :
  (parse_ebay_title title = None /\
   find_best_match title candidates = Ok (None, 0, [], none))
  \/
  (exists e c s b,
     parse_ebay_title title = Some e /\
     foldl (consider e) (Ok (None, -999, [])) candidates = Ok (c, s, b) /\
     find_best_match title candidates = Ok (c, s, b, confidence_of s)).
Proof.
  unfold find_best_match.
  destruct (parse_ebay_title title) as [e|]; [|left; auto].
  right. exists e.
  destruct (best_fold e candidates (None, -999, []))
    as [[Hf _] | (l1 & c & l2 & s & b & _ & Hf & _)].
  - exists None, (-999), []. rewrite Hf. auto.
  - exists (Some c), s, b. rewrite Hf. auto.
Qed.

Lemma confidence_of_mono s1 s2 :
  s1 <= s2 -> (rank (confidence_of s1) <= rank (confidence_of s2))%nat.
Proof.
  intros H. unfold confidence_of.
  repeat match goal with
         | |- context [?a <=? ?b] => destruct (Z.leb_spec a b)
         end; simpl; lia.
Qed.

End MatcherResult.

(** ** The fair-value selector *)

Section FairValueFacts.




End FairValueFacts.

(** ** The registries *)

Section RegistryFacts.

Lemma mem_elem_of x (l : list string) : mem x l = true <-> x ∈ l.
Proof.
  unfold mem. rewrite existsb_exists. split.
  - intros (y & Hy & E). apply String.eqb_eq in E. subst y.
    by apply list_elem_of_In.
  - intros H. exists x. split; [by apply list_elem_of_In | apply String.eqb_refl].
Qed.

Lemma detect_variants_elem registry key aliases alias title_lower :
  (key, aliases) ∈ registry ->
  alias ∈ aliases ->
  Str.contains (Str.lower alias) title_lower = true ->
  key ∈ detect_variants registry title_lower.
Proof.
  intros Hk Ha Hc. unfold detect_variants.
  apply list_elem_of_omap. exists (key, aliases). split; [exact Hk|].
  replace (existsb _ aliases) with true; [reflexivity|].
  symmetry. apply existsb_exists. exists alias.
  split; [by apply list_elem_of_In | exact Hc].
Qed.

Lemma remove_first_other x y (l : list string) :
  y ∈ l -> y <> x -> y ∈ remove_first x l.
Proof.
  intros Hy Hne. induction l as [|z l IH]; [inversion Hy|].
  simpl. destruct (String.eqb_spec x z) as [->|Hxz].
  - apply elem_of_cons in Hy as [-> | Hy]; [congruence | exact Hy].
  - apply elem_of_cons in Hy as [-> | Hy].
    + apply list_elem_of_here.
    + apply list_elem_of_further. auto.
Qed.

Lemma detect_cosmetic_elem key title_lower :
  key ∈ detect_variants COSMETIC_VARIANTS title_lower ->
  key ∈ detect_cosmetic title_lower \/
  (key = "holo" /\ "reverse holo" ∈ detect_cosmetic title_lower).
Proof.
  intros Hk. unfold detect_cosmetic.
  destruct (mem "reverse holo" _ && mem "holo" _) eqn:E; [|auto].
  apply andb_prop in E as [Hr _]. apply mem_elem_of in Hr.
  destruct (String.eqb_spec key "holo") as [->|Hne].
  - right. split; [reflexivity|]. apply remove_first_other; [exact Hr | discriminate].
  - left. apply remove_first_other; assumption.
Qed.

Lemma contains_append needle x y :
  Str.contains needle (x +:+ needle +:+ y) = true.
Proof. unfold Str.contains. rewrite !chars_append. apply contains_chars_app. Qed.

End RegistryFacts.

(** ** The embedding on the module's own examples *)

Example parse_title_demo :
  parse_ebay_title (Some "Pokemon Pikachu Gold Star 104/115 Holon Phantoms PSA 10 GEM MINT")
  = Some (Ebay.Parsed
            "pokemon pikachu gold star 104/115 holon phantoms psa 10 gem mint"
            (Some "104") (Some "PSA") (Some "10") true ["gold star"] ["holo"]).
Proof. vm_compute. reflexivity. Qed.

Example parse_name_demo :
  parse_card_name (Some "Charizard [1st Edition] #4")
  = Some (Card.Parsed "Charizard" (Some "4") ["1st edition"] []).
Proof. vm_compute. reflexivity. Qed.

Example parse_title_grade_with_dot :
  Ebay.grade_number <$> parse_ebay_title (Some "Charizard PSA 10.5x #012 graded")
  = Some (Some "10.").
Proof. vm_compute. reflexivity. Qed.

(** The eight cases of [run_tests] match the expected slug. *)
Example run_tests_pass :
  forallb (fun '(title, candidates, expected_slug) =>
             String.eqb (Tests.matched_slug title candidates) expected_slug)
          Tests.test_cases = true.
Proof. vm_compute. reflexivity. Qed.

(** The first case of [run_tests], in full. *)
Example first_test_case :
  find_best_match
    (Some "Pokemon Charizard 4/102 Base Set 1st Edition PSA 10 GEM MINT")
    Tests.charizard_candidates
  = Ok (Some (Tests.card "715593" "Charizard [1st Edition] #4" 544471
                (Int 16818352) (Int 5000000)),
        45,
        ["+20 name 'charizard'"; "+15 number '4'";
         "+10 value variant '1st edition' MATCH"],
        high).
Proof. vm_compute. reflexivity. Qed.

(** * The properties of the specification *)

(** ** Fair value *)




(** C2 at the title "Charizard PSA 10.0": the grade is numerically 10 and
    the top-grade price is positive, yet the selector returns the second-tier
    price, because it tests the grade text for equality with "10". *)
Theorem grade_10_0_gets_second_tier :
  get_fair_value
    (Some (Tests.card "630417" "Charizard #4" 33617 (Int 1621607) (Int 500000)))
    (parse_ebay_title (Some "Charizard PSA 10.0"))
  = Ok (Some 500000, "PSA 10.0").
Proof. vm_compute. reflexivity. Qed.

(** The grade text "10" itself selects the top-grade price. *)
Lemma fair_value_grade_10 (p : Ebay.parsed) (c : candidate) :
  Ebay.is_graded p = true ->
  Ebay.grade_number p = Some "10" ->
  usable (get (current_psa10 c)) = true ->
  get_fair_value (Some c) (Some p) =
  Ok (get (current_psa10 c), Str.fmt (Ebay.grading_company p) +:+ " 10").
Proof.
  intros Hg Hn Hu. unfold get_fair_value. rewrite Hg, Hn, Hu. reflexivity.
Qed.



(** ** Best match *)

(** C3, as stated, fails: with an empty title the matcher stops before it
    looks at the candidates and returns no candidate, whatever the list. *)
Lemma empty_title_returns_no_candidate :
  ~ returns_a_candidate (Some "")
      [Tests.card "889159" "Pikachu #79" 551 (Int 16250) (Int 5000)].
Proof.
  intros H. destruct H as (c & s & b & t & H & _).
  - eexists. split; [apply list_elem_of_here|].
    vm_compute. eauto.
  - vm_compute in H. discriminate H.
Qed.

(** C3 (amended): for every title that parses and every candidate list with
    at least one entry whose name parses and whose score is above the initial
    value -999 of the loop, [find_best_match] returns a candidate of the list
    together with its own score and reasons; that score is at least the score
    of every other parseable candidate, and strictly above the score of every
    parseable candidate that comes earlier in the list (the first candidate
    with the highest score wins). *)
Theorem best_match_is_first_maximum
  (title : option string) (candidates : list candidate) (e : Ebay.parsed) :
  parse_ebay_title title = Some e ->
  (exists c0 s0 b0,
     c0 ∈ candidates /\ candidate_score e c0 = Some (s0, b0) /\ -999 < s0) ->
  exists l1 c l2 s b,
    candidates = l1 ++ c :: l2 /\
    find_best_match title candidates = Ok (Some c, s, b, confidence_of s) /\
    candidate_score e c = Some (s, b) /\
    (forall c' s' b',
       c' ∈ l1 -> candidate_score e c' = Some (s', b') -> s' < s) /\
    (forall c' s' b',
       c' ∈ l2 -> candidate_score e c' = Some (s', b') -> s' <= s).
Proof.
  intros Hp (c0 & s0 & b0 & Hin & Hs0 & Hgt).
  unfold find_best_match. rewrite Hp.
  destruct (best_fold e candidates (None, -999, []))
    as [[_ Hle] | (l1 & c & l2 & s & b & Hsplit & Hf & Hc & _ & H1 & H2)].
  - specialize (Hle _ _ _ Hin Hs0). simpl in Hle. lia.
  - exists l1, c, l2, s, b. rewrite Hf. auto.
Qed.

Lemma best_match_is_first_maximum_witness :
  exists l1 c l2 s b,
    Tests.pikachu_candidates = l1 ++ c :: l2 /\
    find_best_match (Some "Pikachu 79/115 Holon Phantoms Pokemon Card")
      Tests.pikachu_candidates = Ok (Some c, s, b, confidence_of s) /\
    candidate_score
      (Ebay.Parsed "pikachu 79/115 holon phantoms pokemon card" (Some "79")
         None None false [] ["holo"]) c = Some (s, b) /\
    (forall c' s' b', c' ∈ l1 ->
       candidate_score
         (Ebay.Parsed "pikachu 79/115 holon phantoms pokemon card" (Some "79")
            None None false [] ["holo"]) c' = Some (s', b') -> s' < s) /\
    (forall c' s' b', c' ∈ l2 ->
       candidate_score
         (Ebay.Parsed "pikachu 79/115 holon phantoms pokemon card" (Some "79")
            None None false [] ["holo"]) c' = Some (s', b') -> s' <= s).
Proof.
  apply best_match_is_first_maximum.
  - vm_compute. reflexivity.
  - exists (Tests.card "889159" "Pikachu #79" 551 (Int 16250) (Int 5000)),
      25, ["+20 name 'pikachu'"; "+15 number '79'";
           "-10 title has cosmetic 'holo' but card doesn't"].
    split; [do 2 apply list_elem_of_further; apply list_elem_of_here|].
    split; [vm_compute; reflexivity | lia].
Defined.

(** The bound -999 in the hypothesis is needed: a candidate that scores
    -999 or less never replaces the initial state of the loop.  Here the only
    candidate carries 21 value-variant tags that the title lacks and scores
    20 - 21 * 50 = -1030. *)
Example score_floor_hides_candidate :
  let name :=
    "Pikachu [1st Edition] [Gold Star] [Shadowless] [1999-2000] [Tekno] "
    +:+ "[Sparkle] [For Position Only] [Trainer Deck A] [Trainer Deck B] "
    +:+ "[Prerelease] [Staff] [Error] [Black Dot Error] [Stadium Challenge] "
    +:+ "[Professor Program] [Championships] [Quarter-Finalist] "
    +:+ "[Semi-Finalist] [Top Thirty-Two] [Top 8] [Ultra Ball League]" in
  (fst <$> candidate_score
             (Ebay.Parsed "pikachu" None None None false [] [])
             (Tests.card "1" name 100 Null Null)) = Some (-1030) /\
  find_best_match (Some "Pikachu") [Tests.card "1" name 100 Null Null]
  = Ok (None, -999, [], none).
Proof. vm_compute. split; reflexivity. Qed.

(** C8: when the title does not parse (it is absent or empty), or the
    candidate list is empty, or no candidate name parses, [find_best_match]
    returns, without raising, no candidate, the tier "none" and an empty list
    of reasons. *)
Theorem no_match_sentinel (title : option string) (candidates : list candidate) :
  parse_ebay_title title = None \/
  candidates = [] \/
  (forall c, c ∈ candidates -> ~ parses c) ->
  exists score, find_best_match title candidates = Ok (None, score, [], none).
Proof.
  intros H.
  destruct (find_best_match_returns title candidates)
    as [[_ Hr] | (e & c & s & b & Hp & Hf & Hr)]; [eauto|].
  destruct H as [H | H]; [congruence|].
  assert (Hnone : forall c0, c0 ∈ candidates -> ~ parses c0).
  { destruct H as [-> | H]; [intros c0 Hc0; inversion Hc0 | exact H]. }
  destruct (best_fold e candidates (None, -999, []))
    as [[Hf' _] | (l1 & c1 & l2 & s1 & b1 & -> & _ & Hc1 & _)].
  - rewrite Hf' in Hf. injection Hf as <- <- <-.
    exists (-999). rewrite Hr. reflexivity.
  - exfalso. apply (Hnone c1).
    + apply elem_of_app. right. apply list_elem_of_here.
    + apply (candidate_score_parses e). rewrite Hc1. eauto.
Qed.

Lemma no_match_sentinel_witness :
  exists score,
    find_best_match (Some "Pikachu 79/115")
      [Candidate "1" None "" Absent Absent Absent;
       Candidate "2" (Some "") "" Absent Absent Absent]
    = Ok (None, score, [], none).
Proof.
  apply no_match_sentinel. right. right.
  intros c Hc Hp.
  apply elem_of_cons in Hc as [-> | Hc];
    [|apply elem_of_cons in Hc as [-> | Hc]; [|inversion Hc]];
    destruct Hp as [x Hx]; vm_compute in Hx; discriminate Hx.
Defined.

(** C9: the score that comes with the "no candidate" answer is 0 when the
    title does not parse, and the initial value -999 of the loop when the
    title parses and the candidate list is empty or has no parseable name;
    the two scores differ. *)
Theorem no_match_scores (title : option string) (candidates : list candidate) :
  (parse_ebay_title title = None ->
   find_best_match title candidates = Ok (None, 0, [], none)) /\
  (is_Some (parse_ebay_title title) ->
   candidates = [] \/ (forall c, c ∈ candidates -> ~ parses c) ->
   find_best_match title candidates = Ok (None, -999, [], none)) /\
  0 <> -999.
Proof.
  split; [|split; [|lia]].
  - intros H. unfold find_best_match. rewrite H. reflexivity.
  - intros [e He] H.
    assert (Hnone : forall c0, c0 ∈ candidates -> ~ parses c0).
    { destruct H as [-> | H]; [intros c0 Hc0; inversion Hc0 | exact H]. }
    unfold find_best_match. rewrite He.
    destruct (best_fold e candidates (None, -999, []))
      as [[Hf _] | (l1 & c1 & l2 & s1 & b1 & -> & _ & Hc1 & _)].
    + rewrite Hf. reflexivity.
    + exfalso. apply (Hnone c1).
      * apply elem_of_app. right. apply list_elem_of_here.
      * apply (candidate_score_parses e). rewrite Hc1. eauto.
Qed.

Lemma no_match_scores_witness :
  find_best_match None [] = Ok (None, 0, [], none) /\
  find_best_match (Some "Pikachu 79/115") [] = Ok (None, -999, [], none).
Proof.
  split.
  - apply (proj1 (no_match_scores None [])). reflexivity.
  - apply (proj1 (proj2 (no_match_scores (Some "Pikachu 79/115") []))).
    + vm_compute. eauto.
    + left. reflexivity.
Defined.



(** ** Scoring *)

(** C4: when the first word of the lowercased base name of the catalog entry
    does not occur in the lowercased title, [score_match] returns the score
    -100 with exactly one reason, whatever the other fields of the two parsed
    records hold; no later rule contributes. *)
Theorem gate_failure_is_final
  (e : Ebay.parsed) (c : Card.parsed) (w : string) (ws : list string) :
  Str.split (Str.lower (Card.base_name c)) = w :: ws ->
  Str.contains w (Ebay.title_lower e) = false ->
  score_match (Some e) (Some c)
    = Ok (-100, ["-100 name " +:+ quote w +:+ " NOT FOUND"]) /\
  -100 = - gate_penalty /\
  (forall e' c',
     Ebay.title_lower e' = Ebay.title_lower e ->
     Card.base_name c' = Card.base_name c ->
     score_match (Some e') (Some c') = score_match (Some e) (Some c)).
Proof.
  intros Hw Hc.
  assert (Hgate : forall e' c',
            Ebay.title_lower e' = Ebay.title_lower e ->
            Card.base_name c' = Card.base_name c ->
            score_match (Some e') (Some c')
              = Ok (-100, ["-100 name " +:+ quote w +:+ " NOT FOUND"])).
  { intros e' c' He' Hc'. rewrite score_match_gate.
    unfold passes_gate. rewrite He', Hc', (first_word_split _ _ _ Hw), Hc.
    rewrite andb_false_r. reflexivity. }
  split; [apply Hgate; reflexivity|]. split; [reflexivity|].
  intros e' c' He' Hc'. rewrite (Hgate e' c' He' Hc'), (Hgate e c); reflexivity.
Qed.

Lemma gate_failure_is_final_witness :
  score_match
    (Some (Ebay.Parsed "pikachu 1st edition 4/102 psa 10" (Some "4") (Some "PSA")
             (Some "10") true ["1st edition"] []))
    (Some (Card.Parsed "Charizard" (Some "4") ["1st edition"] []))
  = Ok (-100, ["-100 name 'charizard' NOT FOUND"]).
Proof.
  refine (proj1 (gate_failure_is_final
                   (Ebay.Parsed "pikachu 1st edition 4/102 psa 10" (Some "4")
                      (Some "PSA") (Some "10") true ["1st edition"] [])
                   (Card.Parsed "Charizard" (Some "4") ["1st edition"] [])
                   "charizard" [] _ _)).
  - reflexivity.
  - reflexivity.
Defined.

Lemma list_to_set_insert_middle (l1 l2 : list string) (k : string) :
  list_to_set (l1 ++ k :: l2) =@{gset string} {[k]} ∪ list_to_set (l1 ++ l2).
Proof. rewrite !list_to_set_app_L, list_to_set_cons. set_solver. Qed.

(** C5: for a parsed title and a parsed catalog entry that pass the
    base-name gate, adding to the entry one value-variant key that is neither
    detected in the title nor already on the entry lowers the score of
    [score_match] by exactly the value-variant penalty, 50; and 50 exceeds the
    base-name reward 20 plus the number reward 15. *)
Theorem value_tag_costs_penalty
  (e : Ebay.parsed) (c : Card.parsed) (k : string) (l1 l2 : list string) :
  passes_gate e c = true ->
  Card.value_variants c = l1 ++ l2 ->
  k ∉ l1 ++ l2 ->
  k ∉ Ebay.value_variants_found e ->
  exists s b b',
    score_match (Some e) (Some c) = Ok (s, b) /\
    score_match (Some e)
      (Some (Card.Parsed (Card.base_name c) (Card.card_number c)
               (l1 ++ k :: l2) (Card.cosmetic_variants c)))
      = Ok (s - value_mismatch_penalty, b') /\
    value_mismatch_penalty = 50 /\
    base_name_reward = 20 /\ number_reward = 15 /\
    value_mismatch_penalty > base_name_reward + number_reward.
Proof.
  intros Hgate Hv Hk1 Hk2.
  set (c' := Card.Parsed (Card.base_name c) (Card.card_number c)
               (l1 ++ k :: l2) (Card.cosmetic_variants c)).
  assert (Hgate' : passes_gate e c' = true) by exact Hgate.
  rewrite !score_match_gate, Hgate, Hgate'.
  change (Card.base_name c') with (Card.base_name c).
  unfold passes_gate in Hgate.
  destruct (first_word (Str.lower (Card.base_name c))) as [w|]; [|discriminate].
  set (acc := (20, ["+20 name " +:+ quote w])).
  exists (score_after_gate e c acc).1, (score_after_gate e c acc).2,
         (score_after_gate e c' acc).2.
  split; [by rewrite <- surjective_pairing|].
  split; [|repeat split; reflexivity].
  f_equal. rewrite (surjective_pairing (score_after_gate e c' acc)). f_equal.
  unfold acc. rewrite !score_after_gate_fst. cbv zeta.
  change (number_delta e c') with (number_delta e c).
  change (Card.cosmetic_variants c') with (Card.cosmetic_variants c).
  change (Card.value_variants c') with (l1 ++ k :: l2).
  rewrite Hv, list_to_set_insert_middle.
  set (C := list_to_set (l1 ++ l2) : gset string).
  set (E := list_to_set (Ebay.value_variants_found e) : gset string).
  assert (HkC : k ∉ C) by (unfold C; by rewrite elem_of_list_to_set).
  assert (HkE : k ∉ E) by (unfold E; by rewrite elem_of_list_to_set).
  replace (({[k]} ∪ C) ∩ E) with (C ∩ E) by set_solver.
  replace (E ∖ ({[k]} ∪ C)) with (E ∖ C) by set_solver.
  replace (({[k]} ∪ C) ∖ E) with ({[k]} ∪ (C ∖ E)) by set_solver.
  assert (Hsize : size ({[k]} ∪ (C ∖ E)) = S (size (C ∖ E))).
  { rewrite size_union by set_solver. by rewrite size_singleton. }
  rewrite Hsize. unfold value_mismatch_penalty. lia.
Qed.

Lemma value_tag_costs_penalty_witness :
  exists s b b',
    score_match
      (Some (Ebay.Parsed "pikachu 79/115 holon phantoms pokemon card" (Some "79")
               None None false [] ["holo"]))
      (Some (Card.Parsed "Pikachu" (Some "79") [] [])) = Ok (s, b) /\
    score_match
      (Some (Ebay.Parsed "pikachu 79/115 holon phantoms pokemon card" (Some "79")
               None None false [] ["holo"]))
      (Some (Card.Parsed "Pikachu" (Some "79") ["gold star"] []))
      = Ok (s - value_mismatch_penalty, b') /\
    value_mismatch_penalty = 50 /\
    base_name_reward = 20 /\ number_reward = 15 /\
    value_mismatch_penalty > base_name_reward + number_reward.
Proof.
  apply (value_tag_costs_penalty
           (Ebay.Parsed "pikachu 79/115 holon phantoms pokemon card" (Some "79")
              None None false [] ["holo"])
           (Card.Parsed "Pikachu" (Some "79") [] [])
           "gold star" [] []).
  - reflexivity.
  - reflexivity.
  - intros H. inversion H.
  - intros H. inversion H.
Defined.

(** ** Alias detection *)

(** Exact round trip of the aliases is out of reach: whatever text surrounds
    the alias "prerelease staff", the title also contains the alias "staff",
    so the key "staff" is detected next to "prerelease staff". *)
Lemma alias_round_trip_not_exact : ~ alias_round_trip_exact.
Proof.
  intros H.
  destruct (H "prerelease staff"
              ["prerelease staff"; "pre-release staff"; "staff prerelease"]
              "prerelease staff") as (before & after & Hk).
  - apply elem_of_app. left.
    apply (list_elem_of_lookup_2 _ 10%nat). reflexivity.
  - apply list_elem_of_here.
  - assert (Hin : "staff" ∈ detected_keys (before +:+ "prerelease staff" +:+ after)).
    { unfold detected_keys. rewrite parse_ebay_title_eq.
      destruct (Str.truthy _) eqn:Ht.
      - cbn [Ebay.value_variants_found Ebay.cosmetic_variants_found].
        apply elem_of_app. left.
        apply (detect_variants_elem _ "staff" ["staff"] "staff").
        + apply (list_elem_of_lookup_2 _ 12%nat). reflexivity.
        + apply list_elem_of_here.
        + rewrite !lower_append.
          change (Str.lower "staff") with "staff".
          change (Str.lower "prerelease staff") with ("prerelease " +:+ "staff").
          unfold Str.contains. rewrite !chars_append, <- !app_assoc.
          rewrite (app_assoc (Str.chars (Str.lower before))).
          apply contains_chars_app.
      - unfold detected_keys in Hk. rewrite parse_ebay_title_eq, Ht in Hk.
        discriminate Hk. }
    rewrite Hk in Hin. apply list_elem_of_singleton in Hin. discriminate Hin.
Qed.

(** What the detection does guarantee: for every alias registered in either
    registry and every title in which the alias occurs, case ignored, the
    canonical key of the alias is detected in the key list of its registry,
    except that a detected "holo" is dropped when "reverse holo" is detected
    too; in particular every alias, taken alone as a title, has its key
    detected. *)
Theorem alias_detects_its_key
  (title : string) (p : Ebay.parsed) (key alias : string) (aliases : list string) :
  parse_ebay_title (Some title) = Some p ->
  alias ∈ aliases ->
  Str.contains (Str.lower alias) (Str.lower title) = true ->
  ((key, aliases) ∈ VALUE_VARIANTS -> key ∈ Ebay.value_variants_found p) /\
  ((key, aliases) ∈ COSMETIC_VARIANTS ->
     key ∈ Ebay.cosmetic_variants_found p \/
     (key = "holo" /\ "reverse holo" ∈ Ebay.cosmetic_variants_found p)) /\
  every_alias_detects_its_key = true.
Proof.
  intros Hp Ha Hc.
  apply parse_ebay_title_Some in Hp as (_ & _ & _ & -> & ->).
  split; [|split].
  - intros Hk. eapply detect_variants_elem; eauto.
  - intros Hk. apply detect_cosmetic_elem.
    eapply detect_variants_elem; eauto.
  - vm_compute. reflexivity.
Qed.

Lemma alias_detects_its_key_witness :
  "gold star" ∈ Ebay.value_variants_found
    (Ebay.Parsed "pikachu goldstar 104/115" (Some "104") None None false
       ["gold star"] []).
Proof.
  refine (proj1 (alias_detects_its_key "Pikachu GoldStar 104/115"
                   (Ebay.Parsed "pikachu goldstar 104/115" (Some "104") None None
                      false ["gold star"] [])
                   "gold star" "goldstar"
                   ["gold star"; "goldstar"; "gold ★"; " ★ "] _ _ _) _).
  - vm_compute. reflexivity.
  - apply list_elem_of_further, list_elem_of_here.
  - vm_compute. reflexivity.
  - apply (list_elem_of_lookup_2 _ 1%nat). reflexivity.
Defined.

(** C6 at the title "Pikachu Prerelease Staff 4/102": the title embeds the
    alias "prerelease staff", and the parser detects three keys, the key of
    the alias and the keys "prerelease" and "staff" of the two shorter aliases
    it contains. *)
Theorem prerelease_staff_detects_three_keys :
  detected_keys "Pikachu Prerelease Staff 4/102"
  = ["prerelease staff"; "prerelease"; "staff"].
Proof. vm_compute. reflexivity. Qed.

(** With these three keys the entry "Pikachu [Prerelease Staff] #4" itself
    scores below zero against that title, and the match has tier "none". *)
Example prerelease_staff_never_matches :
  match find_best_match (Some "Pikachu Prerelease Staff 4/102")
          [Tests.card "1" "Pikachu [Prerelease Staff] #4" 1000 Null Null] with
  | Ok (_, score, _, tier) => score = -55 /\ tier = none
  | Raise _ => False
  end.
Proof. vm_compute. split; reflexivity. Qed.

(** * The code around the claims *)

(** ** More on the matcher of regular expressions *)

Section LanguageFacts.
Import Re.

Lemma spans_lang (r : regex) :
  forall a b, spans r a b ->
  exists t, seen b = rev t ++ seen a /\ lang r t.
Proof.
  induction r as [p| |r1 IH1 r2 IH2|r1 IH1 r2 IH2|g r1 IH1| |i r1 IH1];
    intros a b H; simpl in H.
  - destruct H as (c & _ & Hp & Hs & _). exists [c]. simpl. eauto.
  - subst b. exists []. simpl. auto.
  - destruct H as (m & H1 & H2).
    apply IH1 in H1 as (t1 & Hs1 & L1). apply IH2 in H2 as (t2 & Hs2 & L2).
    exists (t1 ++ t2). split.
    + rewrite Hs2, Hs1, rev_app_distr. by rewrite <- app_assoc.
    + simpl. eauto.
  - destruct H as [H | H].
    + apply IH1 in H as (t & Hs & L). exists t. simpl. auto.
    + apply IH2 in H as (t & Hs & L). exists t. simpl. auto.
  - induction H as [a | a m b H1 _ (t & Hs & ts & -> & Hts)].
    + exists []. split; [reflexivity|]. exists []. auto.
    + apply IH1 in H1 as (t1 & Hs1 & L1).
      exists (t1 ++ concat ts). split.
      * rewrite Hs, Hs1, rev_app_distr. by rewrite <- app_assoc.
      * exists (t1 :: ts). split; [reflexivity|]. constructor; auto.
  - destruct H as [-> _]. exists []. simpl. auto.
  - destruct H as (m & H & ->). apply IH1 in H as (t & Hs & L).
    exists t. simpl. auto.
Qed.

Lemma spans_no_groups (r : regex) :
  no_groups r = true -> forall a b, spans r a b -> groups b = groups a.
Proof.
  induction r as [p| |r1 IH1 r2 IH2|r1 IH1 r2 IH2|g r1 IH1| |i r1 IH1];
    simpl; intros Hn a b H.
  - destruct H as (c & _ & _ & _ & H). exact H.
  - by subst.
  - apply andb_prop in Hn as [Hn1 Hn2]. destruct H as (m & H1 & H2).
    rewrite (IH2 Hn2 _ _ H2). eauto.
  - apply andb_prop in Hn as [Hn1 Hn2]. destruct H as [H | H]; eauto.
  - induction H as [a | a m b H1 _ IH]; [reflexivity|].
    rewrite IH. eauto.
  - by destruct H as [-> _].
  - discriminate.
Qed.

(** A closed group holds the text its pattern has read. *)
Lemma spans_group i r a b :
  no_groups r = true ->
  spans (Group i r) a b ->
  exists t, groups b = (i, t) :: groups a /\ lang r t /\
            seen b = rev t ++ seen a.
Proof.
  intros Hn (m & H & ->).
  pose proof (spans_no_groups r Hn _ _ H) as Hg.
  apply spans_lang in H as (t & Hs & L).
  exists t. simpl. rewrite Hg, (text_between_app _ _ t Hs). auto.
Qed.

Lemma search_spans r (s : string) m :
  search r s = Some m ->
  exists before after, spans r (MState before after []) m.
Proof. apply search_from_spans. Qed.

Lemma lang_star_chr g p t : lang (Star g (Chr p)) t -> forallb p t = true.
Proof.
  intros (ts & -> & H). induction H as [|t ts (c & -> & Hp) _ IH]; [reflexivity|].
  simpl. by rewrite Hp, IH.
Qed.

Lemma lang_plus_chr p t :
  lang (Plus (Chr p)) t -> t <> [] /\ forallb p t = true.
Proof.
  intros (t1 & t2 & -> & (c & -> & Hp) & H2).
  apply lang_star_chr in H2. simpl. rewrite Hp, H2. split; [discriminate | reflexivity].
Qed.

End LanguageFacts.

(** ** The title parser: what it guarantees about its output *)

Section DetectionFacts.

Lemma detect_variants_iff registry key title_lower :
  key ∈ detect_variants registry title_lower <->
  alias_occurs registry key title_lower.
Proof.
  split.
  - unfold detect_variants. intros H.
    apply list_elem_of_omap in H as ([k aliases] & Hin & Hf).
    destruct (existsb _ aliases) eqn:E; [|discriminate Hf].
    injection Hf as ->. apply existsb_exists in E as (alias & Ha & Hc).
    exists aliases, alias. split; [exact Hin|]. split; [|exact Hc].
    by apply list_elem_of_In.
  - intros (aliases & alias & Hin & Ha & Hc).
    eapply detect_variants_elem; eauto.
Qed.

Lemma detect_variants_sublist registry title_lower :
  detect_variants registry title_lower `sublist_of` registry.*1.
Proof.
  unfold detect_variants.
  induction registry as [|[k aliases] registry IH]; [constructor|].
  cbn [omap list_omap fmap list_fmap fst].
  destruct (existsb _ aliases); simpl.
  - by apply sublist_skip.
  - by apply sublist_cons.
Qed.

Lemma value_keys_NoDup : NoDup VALUE_VARIANTS.*1.
Proof. apply (bool_decide_unpack _). vm_compute. reflexivity. Qed.

Lemma cosmetic_keys_NoDup : NoDup COSMETIC_VARIANTS.*1.
Proof. apply (bool_decide_unpack _). vm_compute. reflexivity. Qed.

Lemma remove_first_sublist x (l : list string) : remove_first x l `sublist_of` l.
Proof.
  induction l as [|y l IH]; [constructor|].
  simpl. destruct (String.eqb x y).
  - by apply sublist_cons.
  - by apply sublist_skip.
Qed.

Lemma remove_first_NoDup x y (l : list string) :
  NoDup l -> (y ∈ remove_first x l <-> y ∈ l /\ y <> x).
Proof.
  induction 1 as [|z l Hz Hl IH]; simpl.
  - split; [intros H; inversion H | intros [H _]; inversion H].
  - destruct (String.eqb_spec x z) as [->|Hxz].
    + split.
      * intros Hy. split; [by apply list_elem_of_further|]. intros ->. contradiction.
      * intros [Hy Hne]. apply elem_of_cons in Hy as [-> | Hy]; [congruence | exact Hy].
    + rewrite !elem_of_cons, IH. split.
      * intros [-> | [Hy Hne]]; split; auto.
      * intros [[-> | Hy] Hne]; auto.
Qed.

Lemma detect_cosmetic_iff key title_lower :
  key ∈ detect_cosmetic title_lower <->
  key ∈ detect_variants COSMETIC_VARIANTS title_lower /\
  ~ (key = "holo" /\ "reverse holo" ∈ detect_variants COSMETIC_VARIANTS title_lower).
Proof.
  unfold detect_cosmetic.
  set (l := detect_variants COSMETIC_VARIANTS title_lower).
  assert (Hnd : NoDup l).
  { eapply sublist_NoDup; [apply cosmetic_keys_NoDup | apply detect_variants_sublist]. }
  destruct (mem "reverse holo" l) eqn:Hr; simpl.
  - apply mem_elem_of in Hr.
    destruct (mem "holo" l) eqn:Hh.
    + rewrite (remove_first_NoDup _ _ _ Hnd). split.
      * intros [Hk Hne]. split; [exact Hk|]. intros [-> _]. congruence.
      * intros [Hk Hne]. split; [exact Hk|]. intros ->. apply Hne. auto.
    + split.
      * intros Hk. split; [exact Hk|]. intros [-> _].
        apply mem_elem_of in Hk. congruence.
      * intros [Hk _]. exact Hk.
  - split.
    + intros Hk. split; [exact Hk|]. intros [_ H].
      apply mem_elem_of in H. congruence.
    + intros [Hk _]. exact Hk.
Qed.

Lemma detect_cosmetic_sublist title_lower :
  detect_cosmetic title_lower `sublist_of` COSMETIC_VARIANTS.*1.
Proof.
  unfold detect_cosmetic.
  destruct (_ && _).
  - etransitivity; [apply remove_first_sublist | apply detect_variants_sublist].
  - apply detect_variants_sublist.
Qed.

End DetectionFacts.

(** X1: a value-variant key is detected in a title exactly when one of its
    registered aliases occurs in the lowercased title. *)
Theorem value_key_detected_iff_alias_occurs
  (title : string) (p : Ebay.parsed) (key : string) :
  parse_ebay_title (Some title) = Some p ->
  (key ∈ Ebay.value_variants_found p <->
   alias_occurs VALUE_VARIANTS key (Str.lower title)).
Proof.
  intros Hp. apply parse_ebay_title_Some in Hp as (_ & _ & _ & -> & _).
  apply detect_variants_iff.
Qed.

Lemma value_key_detected_iff_alias_occurs_witness :
  "shadowless" ∈ Ebay.value_variants_found
    (Ebay.Parsed "charizard shadow less 4/102" (Some "4") None None false
       ["shadowless"] [])
  <-> alias_occurs VALUE_VARIANTS "shadowless" (Str.lower "Charizard Shadow Less 4/102").
Proof.
  apply (value_key_detected_iff_alias_occurs "Charizard Shadow Less 4/102").
  vm_compute. reflexivity.
Defined.

(** X2: a cosmetic key is detected exactly when one of its aliases occurs in
    the lowercased title, except that "holo" is not reported when an alias of
    "reverse holo" occurs; so the two keys are never reported together. *)
Theorem cosmetic_key_detected_iff
  (title : string) (p : Ebay.parsed) (key : string) :
  parse_ebay_title (Some title) = Some p ->
  (key ∈ Ebay.cosmetic_variants_found p <->
   alias_occurs COSMETIC_VARIANTS key (Str.lower title) /\
   ~ (key = "holo" /\
      alias_occurs COSMETIC_VARIANTS "reverse holo" (Str.lower title))) /\
  ~ ("holo" ∈ Ebay.cosmetic_variants_found p /\
     "reverse holo" ∈ Ebay.cosmetic_variants_found p).
Proof.
  intros Hp. apply parse_ebay_title_Some in Hp as (_ & _ & _ & _ & ->).
  split.
  - rewrite detect_cosmetic_iff, !detect_variants_iff. reflexivity.
  - rewrite !detect_cosmetic_iff. intros [[_ Hn] [Hr _]]. apply Hn. auto.
Qed.

Lemma cosmetic_key_detected_iff_witness :
  ~ ("holo" ∈ Ebay.cosmetic_variants_found
       (Ebay.Parsed "pikachu reverse holo 79/115" (Some "79") None None false
          [] ["reverse holo"]) /\
     "reverse holo" ∈ Ebay.cosmetic_variants_found
       (Ebay.Parsed "pikachu reverse holo 79/115" (Some "79") None None false
          [] ["reverse holo"])).
Proof.
  apply (cosmetic_key_detected_iff "Pikachu Reverse Holo 79/115" _ "holo").
  vm_compute. reflexivity.
Defined.

(** X3: the two lists of detected keys follow the order of their registry
    and hold no key twice. *)
Theorem detected_keys_ordered_without_repeats (title : string) (p : Ebay.parsed) :
  parse_ebay_title (Some title) = Some p ->
  Ebay.value_variants_found p `sublist_of` VALUE_VARIANTS.*1 /\
  Ebay.cosmetic_variants_found p `sublist_of` COSMETIC_VARIANTS.*1 /\
  NoDup (Ebay.value_variants_found p) /\
  NoDup (Ebay.cosmetic_variants_found p).
Proof.
  intros Hp. apply parse_ebay_title_Some in Hp as (_ & _ & _ & -> & ->).
  pose proof (detect_variants_sublist VALUE_VARIANTS (Str.lower title)) as Hv.
  pose proof (detect_cosmetic_sublist (Str.lower title)) as Hc.
  repeat split; auto.
  - eapply sublist_NoDup; [apply value_keys_NoDup | exact Hv].
  - eapply sublist_NoDup; [apply cosmetic_keys_NoDup | exact Hc].
Qed.

Lemma detected_keys_ordered_without_repeats_witness :
  NoDup (Ebay.value_variants_found
           (Ebay.Parsed "staff prerelease staff" None None None false
              ["prerelease staff"; "prerelease"; "staff"] [])).
Proof.
  apply (detected_keys_ordered_without_repeats "Staff Prerelease STAFF").
  vm_compute. reflexivity.
Defined.

Section GradingFacts.
Import Re.

Lemma nocase_upper_letter c x :
  Char.is_upper c = true -> Char.eqb_nocase c x = true -> Char.upper x = c.
Proof.
  destruct c as [[] [] [] [] [] [] [] []]; intros Hc; vm_compute in Hc;
    try discriminate Hc; clear Hc;
    destruct x as [[] [] [] [] [] [] [] []]; intros Hx; vm_compute in Hx;
    try discriminate Hx; reflexivity.
Qed.

Lemma lang_lit_nocase cs t :
  forallb Char.is_upper cs = true ->
  lang (LitNoCase cs) t -> map Char.upper t = cs.
Proof.
  revert t. induction cs as [|c cs IH]; intros t Hu; simpl.
  - by intros ->.
  - simpl in Hu. apply andb_prop in Hu as [Hc Hu].
    intros (t1 & t2 & -> & (x & -> & Hx) & H2). simpl.
    by rewrite (nocase_upper_letter _ _ Hc Hx), (IH _ Hu H2).
Qed.

Lemma lang_company t :
  lang (AltList (map (fun s => LitNoCase (Str.chars s)) Pat.companies)) t ->
  Str.upper (Str.of_chars t) ∈ Pat.companies.
Proof.
  unfold Str.upper. rewrite chars_of_chars.
  cbn [Pat.companies map AltList lang].
  intros H.
  repeat (destruct H as [H | H];
          [apply lang_lit_nocase in H; [|reflexivity]; rewrite H;
           apply list_elem_of_In; vm_compute; tauto|]).
  apply lang_lit_nocase in H; [|reflexivity]. rewrite H.
  apply list_elem_of_In. vm_compute. tauto.
Qed.

(** The two groups of a match of the grade pattern. *)
Lemma grade_match_groups (title : string) (m : mstate) :
  search Pat.grade title = Some m ->
  exists co g,
    group 1 m = Some co /\ Str.upper co ∈ Pat.companies /\
    group 2 m = Some g /\ grade_text g.
Proof.
  intros H. destruct (grade_match_group2 _ _ H) as (g & Hg & Ht).
  apply search_spans in H as (before & after & H).
  destruct H as (m1 & (-> & _) & m2 & H1 & m3 & Hsp & m4 & H2 & (-> & _)).
  apply spans_group in H1 as (t1 & Hg1 & L1 & _); [|reflexivity].
  apply spans_no_groups in Hsp; [|reflexivity].
  apply spans_group in H2 as (t2 & Hg2 & _ & _); [|reflexivity].
  exists (Str.of_chars t1), g. split.
  - unfold group. rewrite Hg2, Hsp, Hg1. reflexivity.
  - split; [apply lang_company, L1 | auto].
Qed.

Lemma grading_info_cases (title title_lower : string) :
  (exists co g,
     grading_info title title_lower = (Some co, Some g, true) /\
     co ∈ Pat.companies /\ grade_text g) \/
  (exists graded, grading_info title title_lower = (None, None, graded)).
Proof.
  unfold grading_info.
  destruct (search Pat.grade title) as [m|] eqn:E.
  - left. apply grade_match_groups in E as (co & g & -> & Hco & -> & Hg).
    exists (Str.upper co), g. auto.
  - right. destruct (search Pat.graded title_lower); eauto.
Qed.

Lemma forallb_lstrip_by (q p : ascii -> bool) l :
  forallb q l = true -> forallb q (Str.lstrip_by p l) = true.
Proof.
  induction l as [|c l IH]; [reflexivity|].
  intros H. simpl. destruct (p c); [|exact H].
  simpl in H. apply andb_prop in H as [_ H]. auto.
Qed.



Lemma hash_number (title : string) (m : mstate) :
  search Pat.hash_number title = Some m ->
  exists n, group 1 m = Some n /\ item_number_text n = true.
Proof.
  intros H. apply search_spans in H as (before & after & H).
  destruct H as (m1 & H1 & m2 & H2 & H3).
  apply spans_group in H3 as (t & Hg & L & _); [|reflexivity].
  exists (Str.of_chars t). split; [unfold group; by rewrite Hg|].
  destruct L as (a & r & -> & La & d & b & -> & Ld & Lb).
  apply lang_star_chr in La, Lb. apply lang_plus_chr in Ld as [Hne Hd].
  unfold item_number_text. rewrite chars_of_chars.
  apply andb_true_intro. split.
  - rewrite !forallb_app. unfold Pat.letter in *.
    apply andb_true_intro. split; [|apply andb_true_intro; split].
    + rewrite forallb_forall in *. intros c Hc. by rewrite (La c Hc).
    + rewrite forallb_forall in *. intros c Hc. rewrite (Hd c Hc). apply orb_true_r.
    + rewrite forallb_forall in *. intros c Hc. by rewrite (Lb c Hc).
  - rewrite !existsb_app. destruct d as [|c d]; [congruence|].
    simpl in Hd. apply andb_prop in Hd as [Hc _].
    simpl. rewrite Hc. simpl. apply orb_true_r.
Qed.


End GradingFacts.





(** ** The catalog-name parser: what it guarantees about its output *)

Section NameFacts.
Import Re.

Lemma parse_card_name_eq (name : string) :
  parse_card_name (Some name) =
  if Str.truthy name then
    let clean := Str.strip (sub_empty Pat.tag name) in
    Some (Card.Parsed
            (Str.strip (sub_empty Pat.hash_suffix clean))
            (match search Pat.hash_suffix clean with
             | Some num_match => group 1 num_match
             | None => None
             end)
            (classify_tags (all_tags name) [] []).1
            (classify_tags (all_tags name) [] []).2)
  else None.
Proof.
  unfold parse_card_name, all_tags.
  destruct (Str.truthy name); simpl negb; cbv iota; [|reflexivity].
  destruct (classify_tags _ _ _). reflexivity.
Qed.

Lemma lstrip_by_suffix p l : exists pre, l = pre ++ Str.lstrip_by p l.
Proof.
  induction l as [|c l (pre & IH)]; [by exists []|].
  simpl. destruct (p c).
  - exists (c :: pre). simpl. by rewrite <- IH.
  - by exists [].
Qed.

Lemma strip_trimmed (s : string) : trimmed (Str.strip s) = true.
Proof.
  unfold trimmed, Str.strip, Str.strip_chars, Str.rstrip_by.
  rewrite chars_of_chars.
  set (r := Str.lstrip_by Char.is_space (rev (Str.chars s))).
  pose proof (lstrip_by_starts Char.is_space (rev (Str.chars s))) as Hr.
  fold r in Hr.
  pose proof (lstrip_by_starts Char.is_space (rev r)) as Hhead.
  destruct (lstrip_by_suffix Char.is_space (rev r)) as (pre & Hpre).
  destruct (Str.lstrip_by Char.is_space (rev r)) as [|c l] eqn:El; [reflexivity|].
  rewrite Hhead. simpl negb. rewrite andb_true_l.
  assert (Hrev : r = rev (c :: l) ++ rev pre).
  { rewrite <- rev_app_distr, <- Hpre. symmetry. apply rev_involutive. }
  destruct (rev (c :: l)) as [|d l'] eqn:Ed.
  - apply (f_equal (@length _)) in Ed. rewrite length_rev in Ed. discriminate.
  - rewrite Hrev in Hr. simpl in Hr. by rewrite Hr.
Qed.

Lemma hash_suffix_number (clean : string) (m : mstate) :
  search Pat.hash_suffix clean = Some m ->
  exists n, group 1 m = Some n /\ one_word n = true.
Proof.
  intros H. apply search_spans in H as (before & after & H).
  destruct H as (m1 & _ & H).
  apply spans_group in H as (t & Hg & L & _); [|reflexivity].
  exists (Str.of_chars t). split; [unfold group; by rewrite Hg|].
  apply lang_plus_chr in L as [Hne Ht].
  unfold one_word. rewrite chars_of_chars, truthy_of_chars, Ht.
  destruct t; [congruence | reflexivity].
Qed.

Lemma first_key_in_cons item registry tag_lower :
  first_key_in (item :: registry) tag_lower =
  if Str.contains (fst item) tag_lower then Some (fst item)
  else first_key_in registry tag_lower.
Proof. unfold first_key_in. simpl. destruct (Str.contains _ _); reflexivity. Qed.

Lemma first_key_in_registry registry tag_lower key :
  first_key_in registry tag_lower = Some key ->
  key ∈ registry.*1 /\ Str.contains key tag_lower = true.
Proof.
  induction registry as [|item registry IH]; [discriminate|].
  rewrite first_key_in_cons.
  destruct (Str.contains (fst item) tag_lower) eqn:E.
  - intros [= <-]. split; [apply list_elem_of_here | exact E].
  - intros H. apply IH in H as [H1 H2].
    split; [by apply list_elem_of_further | exact H2].
Qed.

(** What holds of every key [first_key_in] can return holds of every key
    the loop over the tags collects. *)
Lemma classify_tags_Forall (P Q : string -> Prop) :
  (forall t k, first_key_in VALUE_VARIANTS t = Some k -> P k) ->
  (forall t k, first_key_in COSMETIC_VARIANTS t = Some k -> Q k) ->
  forall tags v0 c0,
    Forall P v0 -> Forall Q c0 ->
    Forall P (classify_tags tags v0 c0).1 /\
    Forall Q (classify_tags tags v0 c0).2.
Proof.
  intros HP HQ. induction tags as [|tag tags IH]; intros v0 c0 Hv Hc.
  - simpl. auto.
  - simpl.
    destruct (first_key_in VALUE_VARIANTS (Str.lower tag)) as [k|] eqn:Ev.
    + apply IH; [|exact Hc]. apply Forall_app. split; [exact Hv|].
      constructor; [eapply HP, Ev | constructor].
    + destruct (first_key_in COSMETIC_VARIANTS (Str.lower tag)) as [k|] eqn:Ec.
      * apply IH; [exact Hv|]. apply Forall_app. split; [exact Hc|].
        constructor; [eapply HQ, Ec | constructor].
      * apply IH; assumption.
Qed.

Lemma classify_tags_length tags : forall v0 c0,
  (length (classify_tags tags v0 c0).1 + length (classify_tags tags v0 c0).2
   <= length v0 + length c0 + length tags)%nat.
Proof.
  induction tags as [|tag tags IH]; intros v0 c0; simpl; [lia|].
  destruct (first_key_in VALUE_VARIANTS (Str.lower tag)) as [k|].
  - specialize (IH (v0 ++ [k]) c0). rewrite length_app in IH. simpl in IH. lia.
  - destruct (first_key_in COSMETIC_VARIANTS (Str.lower tag)) as [k|].
    + specialize (IH v0 (c0 ++ [k])). rewrite length_app in IH. simpl in IH. lia.
    + specialize (IH v0 c0). lia.
Qed.

Lemma starts_with_split p l :
  Str.starts_with p l = true -> exists y, l = p ++ y.
Proof.
  revert l. induction p as [|a p IH]; intros l H; [by exists l|].
  destruct l as [|b l]; [discriminate|].
  simpl in H. apply andb_prop in H as [Hab H].
  apply Ascii.eqb_eq in Hab. subst b.
  apply IH in H as (y & ->). by exists y.
Qed.

Lemma contains_chars_split p l :
  Str.contains_chars p l = true -> exists x y, l = x ++ p ++ y.
Proof.
  induction l as [|c l IH]; rewrite contains_chars_unfold; intros H.
  - apply orb_prop in H as [H | H]; [|discriminate].
    apply starts_with_split in H as (y & ->). by exists [], y.
  - apply orb_prop in H as [H | H].
    + apply starts_with_split in H as (y & ->). by exists [], y.
    + apply IH in H as (x & y & ->). by exists (c :: x), y.
Qed.

(** Occurrence is transitive. *)
Lemma contains_trans a b t :
  Str.contains a b = true -> Str.contains b t = true -> Str.contains a t = true.
Proof.
  unfold Str.contains. intros Hab Hbt.
  apply contains_chars_split in Hab as (x1 & y1 & E1).
  apply contains_chars_split in Hbt as (x2 & y2 & E2).
  rewrite E2, E1, <- !app_assoc, (app_assoc x2 x1).
  apply contains_chars_app.
Qed.

Ltac first_key_cases H :=
  repeat (rewrite first_key_in_cons in H; cbn [fst] in H;
          match type of H with
          | (if Str.contains ?k ?t then _ else _) = _ =>
              destruct (Str.contains k t) eqn:?; [try discriminate H|]
          end);
  try discriminate H.

Lemma cosmetic_key_never_shadowed tag_lower key :
  first_key_in COSMETIC_VARIANTS tag_lower = Some key ->
  key <> "non-holo" /\ key <> "rainbow foil".
Proof.
  intros H. split; intros ->; unfold COSMETIC_VARIANTS in H; first_key_cases H.
  - assert (Str.contains "holo" tag_lower = true)
      by (eapply contains_trans; [|eassumption]; reflexivity).
    congruence.
  - assert (Str.contains "foil" tag_lower = true)
      by (eapply contains_trans; [|eassumption]; reflexivity).
    congruence.
Qed.

Lemma value_key_never_shadowed tag_lower key :
  first_key_in VALUE_VARIANTS tag_lower = Some key ->
  key <> "double holo error" /\ key <> "regional championship staff".
Proof.
  intros H. split; intros ->; unfold VALUE_VARIANTS in H; first_key_cases H.
  - assert (Str.contains "error" tag_lower = true)
      by (eapply contains_trans; [|eassumption]; reflexivity).
    congruence.
  - assert (Str.contains "staff" tag_lower = true)
      by (eapply contains_trans; [|eassumption]; reflexivity).
    congruence.
Qed.

End NameFacts.

(** X6: the base name that [parse_card_name] returns has no white space at
    either end, and the item number, when there is one, is a non-empty text
    without white space. *)
Theorem parsed_name_is_trimmed (name : option string) (c : Card.parsed) :
  parse_card_name name = Some c ->
  trimmed (Card.base_name c) = true /\
  (forall n, Card.card_number c = Some n -> one_word n = true).
Proof.
  destruct name as [name|]; [|discriminate].
  rewrite parse_card_name_eq. destruct (Str.truthy name); [|discriminate].
  cbv zeta. intros H. apply (inj Some) in H. rewrite <- H.
  cbn [Card.base_name Card.card_number]. split; [apply strip_trimmed|].
  intros n.
  destruct (Re.search Pat.hash_suffix _) as [m|] eqn:E; [|discriminate].
  apply hash_suffix_number in E as (n' & -> & Hn'). intros [= <-]. exact Hn'.
Qed.

Lemma parsed_name_is_trimmed_witness :
  trimmed (Card.base_name (Card.Parsed "Mr. Mime" (Some "6/64") [] ["holo"])) = true.
Proof.
  apply (parsed_name_is_trimmed (Some "  Mr. Mime [Holo]  #6/64 ")).
  vm_compute. reflexivity.
Defined.

(** X7: every variant key that [parse_card_name] returns is a key of the
    registry of its kind, and the name yields at most one key per bracket
    tag. *)
Theorem parsed_name_keys_registered (name : string) (c : Card.parsed) :
  parse_card_name (Some name) = Some c ->
  Forall (fun k => k ∈ VALUE_VARIANTS.*1) (Card.value_variants c) /\
  Forall (fun k => k ∈ COSMETIC_VARIANTS.*1) (Card.cosmetic_variants c) /\
  (length (Card.value_variants c) + length (Card.cosmetic_variants c)
   <= length (all_tags name))%nat.
Proof.
  rewrite parse_card_name_eq. destruct (Str.truthy name); [|discriminate].
  cbv zeta. intros H. apply (inj Some) in H. rewrite <- H.
  cbn [Card.value_variants Card.cosmetic_variants].
  assert (HP : forall t k, first_key_in VALUE_VARIANTS t = Some k ->
                           k ∈ VALUE_VARIANTS.*1).
  { intros t k Hk. by apply first_key_in_registry in Hk as [Hk _]. }
  assert (HQ : forall t k, first_key_in COSMETIC_VARIANTS t = Some k ->
                           k ∈ COSMETIC_VARIANTS.*1).
  { intros t k Hk. by apply first_key_in_registry in Hk as [Hk _]. }
  destruct (classify_tags_Forall _ _ HP HQ (all_tags name) [] []
              (List.Forall_nil _) (List.Forall_nil _)) as [Hv Hc].
  split; [exact Hv | split; [exact Hc|]].
  pose proof (classify_tags_length (all_tags name) [] []) as Hl.
  simpl in Hl. exact Hl.
Qed.

Lemma parsed_name_keys_registered_witness :
  (length (Card.value_variants
             (Card.Parsed "Charizard" (Some "4") ["1st edition"] ["reverse holo"]))
   + length (Card.cosmetic_variants
               (Card.Parsed "Charizard" (Some "4") ["1st edition"] ["reverse holo"]))
   <= length (all_tags "Charizard [1st Edition] [Reverse Holo] [Foo] #4"))%nat.
Proof.
  apply (parsed_name_keys_registered
           "Charizard [1st Edition] [Reverse Holo] [Foo] #4").
  vm_compute. reflexivity.
Defined.

(** X8: four registered keys are out of reach of [parse_card_name]: a tag
    that holds "non-holo" or "rainbow foil" is filed under the earlier key
    "holo" or "foil", and one that holds "double holo error" or "regional
    championship staff" under the earlier key "error" or "staff". *)
Theorem parsed_name_unreachable_keys (name : option string) (c : Card.parsed) :
  parse_card_name name = Some c ->
  ("non-holo" ∉ Card.cosmetic_variants c) /\
  ("rainbow foil" ∉ Card.cosmetic_variants c) /\
  ("double holo error" ∉ Card.value_variants c) /\
  ("regional championship staff" ∉ Card.value_variants c).
Proof.
  destruct name as [name|]; [|discriminate].
  rewrite parse_card_name_eq. destruct (Str.truthy name); [|discriminate].
  cbv zeta. intros H. apply (inj Some) in H. rewrite <- H.
  cbn [Card.value_variants Card.cosmetic_variants].
  destruct (classify_tags_Forall
              (fun k => k <> "double holo error" /\ k <> "regional championship staff")
              (fun k => k <> "non-holo" /\ k <> "rainbow foil")
              value_key_never_shadowed cosmetic_key_never_shadowed
              (all_tags name) [] []
              (List.Forall_nil _) (List.Forall_nil _)) as [Hv Hc].
  rewrite Forall_forall in Hv, Hc.
  repeat split; intros Hin.
  - by destruct (Hc _ Hin).
  - by destruct (Hc _ Hin).
  - by destruct (Hv _ Hin).
  - by destruct (Hv _ Hin).
Qed.

Lemma parsed_name_unreachable_keys_witness :
  "non-holo" ∉ Card.cosmetic_variants
    (Card.Parsed "Pikachu" (Some "79") [] ["holo"]).
Proof.
  apply (parsed_name_unreachable_keys (Some "Pikachu [Non-Holo] #79")).
  vm_compute. reflexivity.
Defined.

(** ** The scorer: edge cases and the value of the score *)

Section ScoreFacts.




Lemma lstrip_zeros_leading n :
  Str.lstrip_zeros ("0" +:+ n) = Str.lstrip_zeros n.
Proof. reflexivity. Qed.

End ScoreFacts.



(** X10: on the output of the two parsers [score_match] never raises:
    whatever the title and the catalog name, it returns a score and reasons
    (the sentinel -100 with "no data" when either does not parse). *)
Theorem score_match_total_on_parsed (title name : option string) :
  exists s b,
    score_match (parse_ebay_title title) (parse_card_name name) = Ok (s, b).
Proof.
  destruct (parse_ebay_title title) as [e|]; [|simpl; eauto].
  destruct (parse_card_name name) as [c|] eqn:E; [|simpl; eauto].
  eapply score_match_parsed, E.
Qed.

Lemma score_match_after_gate (e : Ebay.parsed) (c : Card.parsed) :
  passes_gate e c = true ->
  exists w,
    score_match (Some e) (Some c)
    = Ok (score_after_gate e c (20, ["+20 name " +:+ quote w])).
Proof.
  intros Hgate. rewrite score_match_gate, Hgate.
  unfold passes_gate in Hgate.
  destruct (first_word (Str.lower (Card.base_name c))) as [w|]; [|discriminate].
  by exists w.
Qed.

(** X11: once the base-name gate is passed, the score is 20, plus 15 or
    minus 20 for the item number when both sides carry one, plus 10 for each
    value key on both sides, minus 50 for each value key on one side only,
    plus 3 for each cosmetic key on both sides, minus 10 for each cosmetic key
    on one side only; the key lists count as sets. *)
Theorem score_closed_form (e : Ebay.parsed) (c : Card.parsed) :
  passes_gate e c = true ->
  exists b,
    score_match (Some e) (Some c) =
    Ok (let cv : gset string := list_to_set (Card.value_variants c) in
        let ev : gset string := list_to_set (Ebay.value_variants_found e) in
        let cc : gset string := list_to_set (Card.cosmetic_variants c) in
        let ec : gset string := list_to_set (Ebay.cosmetic_variants_found e) in
        20 + number_delta e c
        + 10 * Z.of_nat (size (cv ∩ ev))
        - 50 * Z.of_nat (size (cv ∖ ev)) - 50 * Z.of_nat (size (ev ∖ cv))
        + 3 * Z.of_nat (size (cc ∩ ec))
        - 10 * Z.of_nat (size (cc ∖ ec)) - 10 * Z.of_nat (size (ec ∖ cc)),
        b).
Proof.
  intros Hgate. destruct (score_match_after_gate e c Hgate) as [w ->].
  eexists. f_equal. rewrite (surjective_pairing (score_after_gate _ _ _)).
  f_equal. apply score_after_gate_fst.
Qed.

Lemma score_closed_form_witness :
  exists b,
    score_match
      (Some (Ebay.Parsed "pikachu 79/115 holon phantoms pokemon card" (Some "79")
               None None false [] ["holo"]))
      (Some (Card.Parsed "Pikachu" (Some "79") [] [])) = Ok (25, b).
Proof.
  destruct (score_closed_form
              (Ebay.Parsed "pikachu 79/115 holon phantoms pokemon card" (Some "79")
                 None None false [] ["holo"])
              (Card.Parsed "Pikachu" (Some "79") [] []) eq_refl) as [b Hb].
  exists b. rewrite Hb. vm_compute. reflexivity.
Defined.

(** X12: a catalog entry that passes the gate and agrees with the title on
    the item number, on the set of value keys and on the set of cosmetic keys
    scores 35 plus 10 per value key plus 3 per cosmetic key, hence at least
    35, the threshold of the tier "high". *)
Theorem full_agreement_scores_high (e : Ebay.parsed) (c : Card.parsed) :
  passes_gate e c = true ->
  numbers_agree e c = true ->
  list_to_set (Card.value_variants c)
    =@{gset string} list_to_set (Ebay.value_variants_found e) ->
  list_to_set (Card.cosmetic_variants c)
    =@{gset string} list_to_set (Ebay.cosmetic_variants_found e) ->
  exists s b,
    score_match (Some e) (Some c) = Ok (s, b) /\
    s = 35 + 10 * Z.of_nat (size (list_to_set (Card.value_variants c) : gset string))
           + 3 * Z.of_nat (size (list_to_set (Card.cosmetic_variants c) : gset string)) /\
    confidence_of s = high.
Proof.
  intros Hgate Hnum Hv Hc.
  destruct (score_match_after_gate e c Hgate) as [w Hw].
  rewrite (surjective_pairing (score_after_gate _ _ _)) in Hw.
  rewrite score_after_gate_fst in Hw.
  eexists _, _. split; [exact Hw|]. cbv zeta.
  unfold value_match_reward, value_mismatch_penalty,
    cosmetic_match_reward, cosmetic_mismatch_penalty.
  assert (Hd : number_delta e c = 15).
  { unfold number_delta, numbers_agree in *.
    destruct (Card.card_number c), (Ebay.card_number e); try discriminate.
    apply andb_prop in Hnum as [-> ->]. reflexivity. }
  rewrite Hd, <- Hv, <- Hc.
  replace (list_to_set (Card.value_variants c) ∩ list_to_set (Card.value_variants c))
    with (list_to_set (Card.value_variants c) : gset string) by set_solver.
  replace (list_to_set (Card.cosmetic_variants c) ∩ list_to_set (Card.cosmetic_variants c))
    with (list_to_set (Card.cosmetic_variants c) : gset string) by set_solver.
  replace (list_to_set (Card.value_variants c) ∖ list_to_set (Card.value_variants c))
    with (∅ : gset string) by set_solver.
  replace (list_to_set (Card.cosmetic_variants c) ∖ list_to_set (Card.cosmetic_variants c))
    with (∅ : gset string) by set_solver.
  rewrite size_empty.
  match goal with
  | |- ?s = _ /\ _ =>
      assert (Hs : 35 <= s) by lia; split; [lia|];
      unfold confidence_of; destruct (Z.leb_spec 35 s); [reflexivity | lia]
  end.
Qed.

Lemma full_agreement_scores_high_witness :
  exists s b,
    score_match
      (Some (Ebay.Parsed "pokemon charizard 4/102 base set 1st edition psa 10 gem mint"
               (Some "4") (Some "PSA") (Some "10") true ["1st edition"] []))
      (Some (Card.Parsed "Charizard" (Some "004") ["1st edition"] [])) = Ok (s, b) /\
    s = 35 + 10 * Z.of_nat (size (list_to_set ["1st edition"] : gset string))
           + 3 * Z.of_nat (size (list_to_set [] : gset string)) /\
    confidence_of s = high.
Proof.
  apply (full_agreement_scores_high
           (Ebay.Parsed "pokemon charizard 4/102 base set 1st edition psa 10 gem mint"
              (Some "4") (Some "PSA") (Some "10") true ["1st edition"] [])
           (Card.Parsed "Charizard" (Some "004") ["1st edition"] []));
    reflexivity.
Defined.

(** X13: the score does not depend on the order of the variant keys of
    either side, nor on repetitions among them: two pairs of parsed records
    with the same lowercased title, base name and item numbers, and the same
    sets of keys, get the same score. *)
Theorem score_depends_on_key_sets (e e' : Ebay.parsed) (c c' : Card.parsed) :
  passes_gate e c = true ->
  Ebay.title_lower e' = Ebay.title_lower e ->
  Ebay.card_number e' = Ebay.card_number e ->
  Card.base_name c' = Card.base_name c ->
  Card.card_number c' = Card.card_number c ->
  list_to_set (Ebay.value_variants_found e')
    =@{gset string} list_to_set (Ebay.value_variants_found e) ->
  list_to_set (Ebay.cosmetic_variants_found e')
    =@{gset string} list_to_set (Ebay.cosmetic_variants_found e) ->
  list_to_set (Card.value_variants c')
    =@{gset string} list_to_set (Card.value_variants c) ->
  list_to_set (Card.cosmetic_variants c')
    =@{gset string} list_to_set (Card.cosmetic_variants c) ->
  exists s b b',
    score_match (Some e) (Some c) = Ok (s, b) /\
    score_match (Some e') (Some c') = Ok (s, b').
Proof.
  intros Hgate Ht Hn Hb Hcn Hev Hec Hcv Hcc.
  assert (Hgate' : passes_gate e' c' = true).
  { unfold passes_gate in *. by rewrite Hb, Ht. }
  destruct (score_match_after_gate e c Hgate) as [w Eb].
  destruct (score_match_after_gate e' c' Hgate') as [w' Eb'].
  rewrite (surjective_pairing (score_after_gate _ _ _)), score_after_gate_fst in Eb.
  rewrite (surjective_pairing (score_after_gate _ _ _)), score_after_gate_fst in Eb'.
  eexists _, _, _. split; [exact Eb|]. rewrite Eb'. f_equal. f_equal.
  cbv zeta. rewrite Hev, Hec, Hcv, Hcc.
  unfold number_delta. by rewrite Hcn, Hn.
Qed.

Lemma score_depends_on_key_sets_witness :
  exists s b b',
    score_match
      (Some (Ebay.Parsed "pikachu staff error" None None None false
               ["staff"; "error"] []))
      (Some (Card.Parsed "Pikachu" None ["staff"; "error"] [])) = Ok (s, b) /\
    score_match
      (Some (Ebay.Parsed "pikachu staff error" None None None false
               ["staff"; "error"] []))
      (Some (Card.Parsed "Pikachu" None ["error"; "staff"; "error"] [])) = Ok (s, b').
Proof.
  apply (score_depends_on_key_sets
           (Ebay.Parsed "pikachu staff error" None None None false ["staff"; "error"] [])
           (Ebay.Parsed "pikachu staff error" None None None false ["staff"; "error"] [])
           (Card.Parsed "Pikachu" None ["staff"; "error"] [])
           (Card.Parsed "Pikachu" None ["error"; "staff"; "error"] []));
    reflexivity.
Defined.

(** X14: leading zeros on the item number of the catalog entry do not
    matter: with one more "0" in front, [score_match] returns the same score
    and the same reasons. *)
Theorem leading_zero_is_ignored (e : Ebay.parsed) (c : Card.parsed) (n : string) :
  Card.card_number c = Some n ->
  Str.truthy n = true ->
  score_match (Some e)
    (Some (Card.Parsed (Card.base_name c) (Some ("0" +:+ n))
             (Card.value_variants c) (Card.cosmetic_variants c)))
  = score_match (Some e) (Some c).
Proof.
  intros Hn Ht. unfold score_match, score_after_gate.
  cbn [Card.base_name Card.card_number Card.value_variants Card.cosmetic_variants].
  rewrite Hn, lstrip_zeros_leading, Ht. reflexivity.
Qed.

Lemma leading_zero_is_ignored_witness :
  score_match
    (Some (Ebay.Parsed "pikachu 79/115" (Some "79") None None false [] []))
    (Some (Card.Parsed "Pikachu" (Some "079") [] []))
  = score_match
      (Some (Ebay.Parsed "pikachu 79/115" (Some "79") None None false [] []))
      (Some (Card.Parsed "Pikachu" (Some "79") [] [])).
Proof.
  apply (leading_zero_is_ignored
           (Ebay.Parsed "pikachu 79/115" (Some "79") None None false [] [])
           (Card.Parsed "Pikachu" (Some "79") [] []) "79"); reflexivity.
Defined.

(** ** The matcher: the result on every input *)

Section BestScore.

Variable e : Ebay.parsed.

(** The state the loop ends in: its score bounds every candidate's score
    from above, and is either the initial -999 with no candidate, or the
    score of the candidate it holds. *)
Lemma loop_result (candidates : list candidate) :
  exists c s b,
    foldl (consider e) (Ok (None, -999, [])) candidates = Ok (c, s, b) /\
    (forall c' s' b', c' ∈ candidates ->
       candidate_score e c' = Some (s', b') -> s' <= s) /\
    ((c = None /\ s = -999 /\ b = []) \/
     (exists c0, c = Some c0 /\ c0 ∈ candidates /\
                 candidate_score e c0 = Some (s, b) /\ -999 < s)).
Proof.
  destruct (best_fold e candidates (None, -999, []))
    as [[Hf Hle] | (l1 & c & l2 & s & b & -> & Hf & Hc & Hgt & H1 & H2)].
  - exists None, (-999), []. split; [exact Hf|]. split; [exact Hle | auto].
  - exists (Some c), s, b. split; [exact Hf|]. split.
    + intros c' s' b' Hin Hs'.
      apply elem_of_app in Hin as [Hin | Hin].
      * specialize (H1 _ _ _ Hin Hs'). lia.
      * apply elem_of_cons in Hin as [-> | Hin].
        -- rewrite Hc in Hs'. injection Hs' as <- _. lia.
        -- eauto.
    + right. exists c. repeat split; auto.
      apply elem_of_app. right. apply list_elem_of_here.
Qed.

Lemma loop_score_mono (l l' : list candidate) c s b c' s' b' :
  l ⊆ l' ->
  foldl (consider e) (Ok (None, -999, [])) l = Ok (c, s, b) ->
  foldl (consider e) (Ok (None, -999, [])) l' = Ok (c', s', b') ->
  s <= s'.
Proof.
  intros Hsub Hl Hl'.
  destruct (loop_result l) as (c1 & s1 & b1 & E1 & _ & Hatt).
  destruct (loop_result l') as (c2 & s2 & b2 & E2 & Hle & Hatt').
  rewrite Hl in E1. injection E1 as <- <- <-.
  rewrite Hl' in E2. injection E2 as <- <- <-.
  destruct Hatt as [(_ & -> & _) | (c0 & _ & Hin & Hs & _)].
  - destruct Hatt' as [(_ & -> & _) | (c0 & _ & _ & _ & Hgt)]; lia.
  - eapply Hle; [apply Hsub, Hin | exact Hs].
Qed.

Lemma consider_unparseable (acc : best) (card : candidate) :
  ~ parses card -> consider e (Ok acc) card = Ok acc.
Proof.
  intros Hn. rewrite consider_step.
  destruct (candidate_score e card) as [r|] eqn:E; [|reflexivity].
  exfalso. apply Hn, (candidate_score_parses e). rewrite E. eauto.
Qed.

End BestScore.

(** X15: [find_best_match] never raises, and its result is one of three:
    the early answer (no candidate, score 0) when the title does not parse;
    no candidate with score -999 when no parseable candidate scores above
    -999; else a candidate of the list with its own score and reasons, a
    score above -999 that no candidate of the list exceeds, and the tier of
    that score. *)
Theorem find_best_match_result (title : option string) (candidates : list candidate) :
  (parse_ebay_title title = None /\
   find_best_match title candidates = Ok (None, 0, [], none))
  \/
  (exists e, parse_ebay_title title = Some e /\
     ((find_best_match title candidates = Ok (None, -999, [], none) /\
       forall c s b, c ∈ candidates -> candidate_score e c = Some (s, b) ->
                     s <= -999)
      \/
      (exists c s b,
         find_best_match title candidates = Ok (Some c, s, b, confidence_of s) /\
         c ∈ candidates /\ candidate_score e c = Some (s, b) /\ -999 < s /\
         forall c' s' b', c' ∈ candidates ->
           candidate_score e c' = Some (s', b') -> s' <= s))).
Proof.
  unfold find_best_match.
  destruct (parse_ebay_title title) as [e|]; [|left; auto].
  right. exists e. split; [reflexivity|].
  destruct (loop_result e candidates) as (c & s & b & -> & Hle & Hatt).
  destruct Hatt as [(-> & -> & ->) | (c0 & -> & Hin & Hs & Hgt)].
  - left. auto.
  - right. exists c0, s, b. auto.
Qed.

(** X16: a candidate whose name is missing or empty can be taken out of the
    list without changing the result of [find_best_match]. *)
Theorem unparseable_candidate_is_ignored
  (title : option string) (l1 l2 : list candidate) (c : candidate) :
  ~ parses c ->
  find_best_match title (l1 ++ c :: l2) = find_best_match title (l1 ++ l2).
Proof.
  intros Hn. unfold find_best_match.
  destruct (parse_ebay_title title) as [e|]; [|reflexivity].
  rewrite !foldl_app. cbn [foldl].
  destruct (loop_result e l1) as (c1 & s1 & b1 & -> & _).
  by rewrite consider_unparseable.
Qed.

Lemma unparseable_candidate_is_ignored_witness :
  find_best_match (Some "Pikachu 79/115")
    ([Tests.card "889184" "Pikachu [Gold Star] #104" 212291 (Int 2350000) (Int 1000000)]
     ++ Candidate "0" None "Holon Phantoms" Absent Absent Absent
     :: [Tests.card "889159" "Pikachu #79" 551 (Int 16250) (Int 5000)])
  = find_best_match (Some "Pikachu 79/115")
      ([Tests.card "889184" "Pikachu [Gold Star] #104" 212291 (Int 2350000) (Int 1000000)]
       ++ [Tests.card "889159" "Pikachu #79" 551 (Int 16250) (Int 5000)]).
Proof.
  apply unparseable_candidate_is_ignored.
  intros [x Hx]. vm_compute in Hx. discriminate Hx.
Defined.

(** X17: the score and the tier that [find_best_match] returns grow with the
    candidate list: if every candidate of one list occurs in another, the
    second list gets a score and a tier at least as high. *)
Theorem more_candidates_never_lower_the_score
  (title : option string) (l l' : list candidate) :
  l ⊆ l' ->
  exists s t s' t',
    result_score (find_best_match title l) = Some s /\
    result_tier (find_best_match title l) = Some t /\
    result_score (find_best_match title l') = Some s' /\
    result_tier (find_best_match title l') = Some t' /\
    s <= s' /\ (rank t <= rank t')%nat.
Proof.
  intros Hsub. unfold find_best_match.
  destruct (parse_ebay_title title) as [e|].
  - destruct (loop_result e l) as (c1 & s1 & b1 & E1 & _).
    destruct (loop_result e l') as (c2 & s2 & b2 & E2 & _).
    pose proof (loop_score_mono e l l' _ _ _ _ _ _ Hsub E1 E2) as Hle.
    rewrite E1, E2. exists s1, (confidence_of s1), s2, (confidence_of s2).
    repeat split; auto. by apply confidence_of_mono.
  - exists 0, none, 0, none. repeat split; auto. lia.
Qed.

Lemma more_candidates_never_lower_the_score_witness :
  exists s t s' t',
    result_score (find_best_match (Some "Pikachu 79/115")
                    [Tests.card "889184" "Pikachu [Gold Star] #104" 212291
                       (Int 2350000) (Int 1000000)]) = Some s /\
    result_tier (find_best_match (Some "Pikachu 79/115")
                   [Tests.card "889184" "Pikachu [Gold Star] #104" 212291
                      (Int 2350000) (Int 1000000)]) = Some t /\
    result_score (find_best_match (Some "Pikachu 79/115") Tests.pikachu_candidates)
      = Some s' /\
    result_tier (find_best_match (Some "Pikachu 79/115") Tests.pikachu_candidates)
      = Some t' /\
    s <= s' /\ (rank t <= rank t')%nat.
Proof.
  apply more_candidates_never_lower_the_score.
  intros c Hc. apply list_elem_of_singleton in Hc. subst c.
  apply list_elem_of_here.
Defined.

(** X18: the score and the tier do not depend on the order of the
    candidates (the candidate returned may, when two candidates tie). *)
Theorem score_is_order_independent
  (title : option string) (l l' : list candidate) :
  l ≡ₚ l' ->
  result_score (find_best_match title l) = result_score (find_best_match title l') /\
  result_tier (find_best_match title l) = result_tier (find_best_match title l').
Proof.
  intros Hp. unfold find_best_match.
  destruct (parse_ebay_title title) as [e|]; [|auto].
  destruct (loop_result e l) as (c1 & s1 & b1 & E1 & _).
  destruct (loop_result e l') as (c2 & s2 & b2 & E2 & _).
  assert (H12 : s1 <= s2).
  { eapply (loop_score_mono e l l'); eauto. intros x. by rewrite Hp. }
  assert (H21 : s2 <= s1).
  { eapply (loop_score_mono e l' l); eauto. intros x. by rewrite Hp. }
  rewrite E1, E2. simpl. replace s2 with s1 by lia. auto.
Qed.

Lemma score_is_order_independent_witness :
  result_score (find_best_match (Some "Pikachu 79/115") Tests.pikachu_candidates)
  = result_score (find_best_match (Some "Pikachu 79/115")
                    (rev Tests.pikachu_candidates)).
Proof.
  apply (score_is_order_independent (Some "Pikachu 79/115")
           Tests.pikachu_candidates (rev Tests.pikachu_candidates)).
  apply Permutation_rev.
Defined.

(** ** The fair-value selector: graded prices *)

(** X19: whenever [get_fair_value] answers with a label other than "Raw" and
    "Unknown", that is with a graded price, the value is a positive integer:
    a missing, null, zero or negative graded price is never returned. *)
Theorem graded_price_is_positive
  (card : option candidate) (p : option Ebay.parsed) (val : option Z) (label : string) :
  get_fair_value card p = Ok (val, label) ->
  label = "Raw" \/ label = "Unknown" \/ exists z, val = Some z /\ 0 < z.
Proof.
  assert (Hu : forall v, usable v = true -> exists z, v = Some z /\ 0 < z).
  { intros [z|] H; [|discriminate]. exists z. split; [reflexivity|].
    simpl in H. lia. }
  unfold get_fair_value.
  destruct p as [p|]; [|intros [= <- <-]; auto].
  destruct card as [c|]; [|intros [= <- <-]; auto].
  destruct (Ebay.is_graded p); [|intros [= <- <-]; auto].
  destruct (opt_eqb _ _ && usable (get (current_psa10 c))) eqn:E10.
  - apply andb_prop in E10 as [_ E10]. intros [= <- <-]. auto.
  - destruct (if truthy_opt (Ebay.grade_number p) then _ else _) as [b|x];
      unfold mbind, result_bind; [|discriminate].
    destruct (usable (get (current_psa9 c))) eqn:E9.
    + rewrite andb_true_r. destruct b; intros [= <- <-]; auto.
    + rewrite andb_false_r. intros [= <- <-]. auto.
Qed.

Lemma graded_price_is_positive_witness :
  "PSA 9" = "Raw" \/ "PSA 9" = "Unknown" \/ exists z, Some 500000 = Some z /\ 0 < z.
Proof.
  apply (graded_price_is_positive
           (Some (Tests.card "630417" "Charizard #4" 33617 (Int 1621607) (Int 500000)))
           (parse_ebay_title (Some "Charizard 4/102 PSA 9"))).
  vm_compute. reflexivity.
Defined.

(** ** Substitution: what the matcher computes for the simple patterns *)

Section SubstitutionFacts.
Import Re.

Lemma star_chr_greedy p : forall after before gs,
  exists before',
    rmatch (Star true (Chr p)) (MState before after gs) Some
    = Some (MState before' (Str.lstrip_by p after) gs).
Proof.
  induction after as [|c tl IH]; intros before gs.
  - exists before. reflexivity.
  - destruct (IH (c :: before) gs) as (before' & IH').
    cbn [rmatch rest seen groups length] in *.
    destruct (p c) eqn:Hp.
    + assert (Hlt : (length tl <? S (length tl))%nat = true)
        by (apply Nat.ltb_lt; lia).
      rewrite Hlt, IH'. exists before'.
      cbn [Str.lstrip_by]. rewrite Hp. reflexivity.
    + exists before. cbn [Str.lstrip_by orelse]. rewrite Hp. reflexivity.
Qed.

Lemma match_at_plus_chr p before after :
  match after with
  | c :: tl =>
      if p c
      then exists before',
             match_at (Plus (Chr p)) before after
             = Some (MState before' (Str.lstrip_by p tl) [])
      else match_at (Plus (Chr p)) before after = None
  | [] => match_at (Plus (Chr p)) before after = None
  end.
Proof.
  destruct after as [|c tl]; [reflexivity|].
  unfold match_at, Plus. cbn [rmatch rest seen groups].
  destruct (p c); [|reflexivity].
  apply star_chr_greedy.
Qed.

Lemma lstrip_by_length p l : (length (Str.lstrip_by p l) <= length l)%nat.
Proof.
  destruct (lstrip_by_suffix p l) as (pre & H).
  rewrite H at 2. rewrite length_app. lia.
Qed.

Lemma collapse_runs_in_run p repl l :
  collapse_runs p repl true l = collapse_runs p repl false (Str.lstrip_by p l).
Proof.
  induction l as [|c l IH]; [reflexivity|].
  simpl. destruct (p c) eqn:Hp; [exact IH|].
  simpl. by rewrite Hp.
Qed.

Lemma scan_plus_chr p (repl : list ascii) : forall fuel after before,
  (length after < fuel)%nat ->
  concat (map (fun x => match x with inl cs => cs | inr _ => repl end)
              (scan fuel (Plus (Chr p)) before after))
  = collapse_runs p repl false after.
Proof.
  induction fuel as [|fuel IH]; intros after before Hlen; [lia|].
  cbn [scan].
  pose proof (match_at_plus_chr p before after) as Hm.
  destruct after as [|c tl].
  - rewrite Hm. reflexivity.
  - cbn [collapse_runs]. destruct (p c) eqn:Hp.
    + destruct Hm as (before' & ->). cbn [rest seen].
      pose proof (lstrip_by_length p tl) as Hl. simpl in Hlen.
      assert (Hlt : (length (Str.lstrip_by p tl) <? length (c :: tl))%nat = true)
        by (apply Nat.ltb_lt; simpl; lia).
      rewrite Hlt. cbn [map concat].
      rewrite IH by lia. by rewrite collapse_runs_in_run.
    + rewrite Hm. cbn [map concat]. simpl in Hlen.
      rewrite IH by lia. reflexivity.
Qed.

(** Substituting for runs of one class is [collapse_runs]. *)
Lemma re_sub_plus_chr p (repl s : string) :
  re_sub (Plus (Chr p)) repl s
  = Str.of_chars (collapse_runs p (Str.chars repl) false (Str.chars s)).
Proof.
  unfold re_sub, scan_string. f_equal. apply scan_plus_chr.
  assert (String.length s = length (Str.chars s)) as ->; [|lia].
  induction s; simpl; auto.
Qed.

Lemma scan_chr p : forall fuel after before,
  (length after < fuel)%nat ->
  concat (map (fun x => match x with inl cs => cs | inr _ => [] end)
              (scan fuel (Chr p) before after))
  = List.filter (fun c => negb (p c)) after.
Proof.
  induction fuel as [|fuel IH]; intros after before Hlen; [lia|].
  cbn [scan]. unfold match_at. cbn [rmatch rest seen groups].
  destruct after as [|c tl]; [reflexivity|].
  simpl in Hlen. cbn [List.filter].
  destruct (p c); cbn [rest seen negb].
  - assert (Hlt : (length tl <? length (c :: tl))%nat = true)
      by (apply Nat.ltb_lt; simpl; lia).
    rewrite Hlt. cbn [map concat]. rewrite IH by lia. reflexivity.
  - cbn [map concat]. rewrite IH by lia. reflexivity.
Qed.

(** Removing every character of a class is a filter. *)
Lemma sub_empty_chr p (s : string) :
  sub_empty (Chr p) s
  = Str.of_chars (List.filter (fun c => negb (p c)) (Str.chars s)).
Proof.
  unfold sub_empty, scan_string. f_equal. apply scan_chr.
  assert (String.length s = length (Str.chars s)) as ->; [|lia].
  induction s; simpl; auto.
Qed.

(** After the substitution, with a one-character replacement of the class
    itself, no two neighbours are in the class. *)
Lemma collapse_runs_no_adjacent p r l :
  p r = true ->
  forall b,
    no_adjacent p (collapse_runs p [r] b l) = true /\
    (b = true ->
     match collapse_runs p [r] b l with
     | c :: _ => p c = false
     | [] => True
     end).
Proof.
  intros Hr. induction l as [|c l IH]; intros b; [simpl; auto|].
  cbn [collapse_runs]. destruct (p c) eqn:Hp.
  - destruct (IH true) as [IH1 IH2]. specialize (IH2 eq_refl).
    destruct b; cbn [app].
    + split; [exact IH1 | intros _; exact IH2].
    + split; [|discriminate]. cbn [no_adjacent].
      rewrite IH1, andb_true_r.
      destruct (collapse_runs p [r] true l); [reflexivity|].
      by rewrite IH2, andb_false_r.
  - destruct (IH false) as [IH1 _]. split; [|intros _; exact Hp].
    cbn [no_adjacent]. rewrite IH1, andb_true_r, Hp.
    by destruct (collapse_runs p [r] false l).
Qed.

Lemma collapse_runs_forallb (q p : ascii -> bool) repl l b :
  forallb q repl = true ->
  (forall c, c ∈ l -> p c = false -> q c = true) ->
  forallb q (collapse_runs p repl b l) = true.
Proof.
  intros Hrepl. revert b. induction l as [|c l IH]; intros b Hq; [reflexivity|].
  cbn [collapse_runs].
  assert (Hl : forall c', c' ∈ l -> p c' = false -> q c' = true)
    by (intros c' Hc'; apply Hq; by apply list_elem_of_further).
  destruct (p c) eqn:Hp.
  - rewrite forallb_app, (IH _ Hl), andb_true_r. by destruct b.
  - cbn [forallb]. rewrite (IH _ Hl), andb_true_r.
    apply Hq; [apply list_elem_of_here | exact Hp].
Qed.

Lemma no_adjacent_tail p a l : no_adjacent p (a :: l) = true -> no_adjacent p l = true.
Proof. cbn [no_adjacent]. intros H. by apply andb_prop in H as [_ H]. Qed.

Lemma no_adjacent_lstrip p q l :
  no_adjacent p l = true -> no_adjacent p (Str.lstrip_by q l) = true.
Proof.
  induction l as [|c l IH]; [reflexivity|].
  intros H. cbn [Str.lstrip_by]. destruct (q c); [|exact H].
  apply IH. eapply no_adjacent_tail, H.
Qed.

Lemma no_adjacent_rev p l : no_adjacent p (rev l) = no_adjacent p l.
Proof.
  assert (Hsnoc : forall l a,
            no_adjacent p (l ++ [a])
            = no_adjacent p l
              && match rev l with b :: _ => negb (p b && p a) | [] => true end).
  { clear l. induction l as [|x l IH]; intros a; [reflexivity|].
    cbn [app no_adjacent]. rewrite IH. cbn [rev].
    destruct l as [|y l]; cbn [app rev].
    - simpl. by rewrite !andb_true_r.
    - rewrite <- !andb_assoc. do 2 f_equal.
      destruct (rev l ++ [y]) eqn:E; [by destruct (rev l)|].
      simpl. reflexivity. }
  induction l as [|x l IH]; [reflexivity|].
  cbn [rev]. rewrite Hsnoc, IH, rev_involutive.
  cbn [no_adjacent]. destruct l; simpl.
  - reflexivity.
  - rewrite andb_comm. f_equal. f_equal. apply andb_comm.
Qed.

Lemma strip_chars_keeps (l : list ascii) :
  (forall p, no_adjacent p l = true -> no_adjacent p (Str.strip_chars l) = true) /\
  (forall q, forallb q l = true -> forallb q (Str.strip_chars l) = true).
Proof.
  unfold Str.strip_chars, Str.rstrip_by. split.
  - intros p H. apply no_adjacent_lstrip. rewrite no_adjacent_rev.
    apply no_adjacent_lstrip. by rewrite no_adjacent_rev.
  - intros q H. apply forallb_lstrip_by.
    rewrite forallb_forall in *. intros c Hc. apply in_rev in Hc.
    assert (Hrev : forallb q (rev l) = true).
    { apply forallb_forall. intros c' Hc'. apply H. by apply in_rev. }
    apply (forallb_lstrip_by q Char.is_space) in Hrev.
    rewrite forallb_forall in Hrev. by apply Hrev.
Qed.

End SubstitutionFacts.

(** ** The search query *)

Section QueryFacts.

Lemma single_spaced_normalised (s : string) :
  single_spaced (Str.strip (re_sub Pat2.spaces " " s)) = true.
Proof.
  unfold single_spaced. rewrite strip_trimmed. cbn [andb].
  unfold Pat2.spaces, Pat.space. rewrite re_sub_plus_chr.
  unfold Str.strip. rewrite !chars_of_chars.
  set (l := collapse_runs Char.is_space (Str.chars " ") false (Str.chars s)).
  destruct (strip_chars_keeps l) as [Hadj Hall].
  rewrite Hadj, Hall; [reflexivity| |].
  - apply collapse_runs_forallb; [reflexivity|].
    intros c _ Hc. by rewrite Hc.
  - apply (collapse_runs_no_adjacent Char.is_space " " (Str.chars s) eq_refl false).
Qed.

Lemma parse_card_identity_query (name : string) (set_name : option string) :
  Str.truthy name = true ->
  exists id,
    parse_card_identity (Some name) set_name = Some id /\
    single_spaced (Identity.search_query id) = true /\
    trimmed (Identity.set_name id) = true.
Proof.
  intros Ht. unfold parse_card_identity. rewrite Ht. simpl negb. cbv iota.
  destruct (parse_card_name (Some name)) as [parsed|] eqn:E.
  - eexists. split; [reflexivity|]. cbn [Identity.search_query Identity.set_name].
    split; [apply single_spaced_normalised | apply strip_trimmed].
  - apply parse_card_name_None in E as [E | E]; [discriminate|].
    injection E as ->. discriminate.
Qed.

End QueryFacts.

(** X20: [build_search_query] returns [None] exactly when the card name is
    missing or empty; otherwise it returns a query in which white space
    occurs only as single blanks between words: none at either end, no two in
    a row, no tab or line break. *)
Theorem search_query_is_single_spaced (card_name set_name : option string) :
  (build_search_query card_name set_name = None <->
   card_name = None \/ card_name = Some "") /\
  (forall q, build_search_query card_name set_name = Some q ->
             single_spaced q = true).
Proof.
  unfold build_search_query.
  destruct card_name as [name|]; [|split; [tauto | discriminate]].
  cbn [truthy_opt]. destruct (Str.truthy name) eqn:Ht.
  - destruct (parse_card_identity_query name set_name Ht) as (id & -> & Hq & _).
    cbn [negb fmap option_fmap option_map]. split.
    + split; [discriminate|]. intros [H | H]; [discriminate|].
      injection H as ->. discriminate.
    + intros q [= <-]. exact Hq.
  - cbn [negb]. split; [|discriminate].
    split; [|reflexivity]. intros _. right. by destruct name.
Qed.

Lemma search_query_is_single_spaced_witness :
  single_spaced "Pokemon Mr. Mime 1st Edition EX Holon Phantoms 6" = true.
Proof.
  apply (proj2 (search_query_is_single_spaced
                  (Some "Mr.  Mime [1st   Edition] [1st Edition] #6")
                  (Some "pokemon   EX   Holon Phantoms "))).
  vm_compute. reflexivity.
Defined.

(** ** The candidate pool *)

Section PoolFacts.

Lemma index_fold (cards : list candidate) :
  forall (m : gmap string (list candidate)) (s : string),
  default []
    (foldl (fun by_set card =>
              <[set_name card := default [] (by_set !! set_name card) ++ [card]]> by_set)
           m cards !! s)
  = default [] (m !! s) ++ List.filter (fun c => String.eqb (set_name c) s) cards.
Proof.
  induction cards as [|c cards IH]; intros m s.
  - cbn [foldl List.filter]. by rewrite app_nil_r.
  - cbn [foldl List.filter]. rewrite IH.
    destruct (String.eqb_spec (set_name c) s) as [<- | Hne].
    + rewrite lookup_insert_eq. simpl. by rewrite <- app_assoc.
    + by rewrite lookup_insert_ne.
Qed.

(** The index holds, under each set name, the cards of that set in the
    order of the input. *)
Lemma index_by_set_lookup (all_cards : list candidate) (s : string) :
  default [] (index_by_set all_cards !! s)
  = List.filter (fun c => String.eqb (set_name c) s) all_cards.
Proof. unfold index_by_set. rewrite index_fold, lookup_empty. reflexivity. Qed.

Lemma filter_filter {A} (f g : A -> bool) (l : list A) :
  List.filter f (List.filter g l) = List.filter (fun x => g x && f x) l.
Proof.
  induction l as [|x l IH]; [reflexivity|].
  simpl. destruct (g x); simpl; [|exact IH].
  destruct (f x); by rewrite IH.
Qed.

Lemma same_base_name_gate (e : Ebay.parsed) (c : candidate) (p q : Card.parsed) :
  same_base_name (Str.lower (Card.base_name p)) c = true ->
  parse_card_name (card_name c) = Some q ->
  passes_gate e q = passes_gate e p /\
  first_word (Str.lower (Card.base_name q)) = first_word (Str.lower (Card.base_name p)).
Proof.
  unfold same_base_name. intros H Hq. rewrite Hq in H.
  apply String.eqb_eq in H. unfold passes_gate. by rewrite H.
Qed.

End PoolFacts.

(** X21: over the index built from all cards, [find_candidates] returns
    exactly the cards of the same set whose base name equals that of the
    searched card, case ignored, in the order of the input; it returns the
    empty list when the name of the searched card does not parse. *)
Theorem find_candidates_is_a_filter (card : candidate) (all_cards : list candidate) :
  find_candidates card (index_by_set all_cards) =
  match parse_card_name (card_name card) with
  | Some parsed =>
      List.filter
        (fun c => String.eqb (set_name c) (set_name card)
                  && same_base_name (Str.lower (Card.base_name parsed)) c)
        all_cards
  | None => []
  end.
Proof.
  unfold find_candidates.
  destruct (parse_card_name (card_name card)) as [parsed|]; [|reflexivity].
  cbv zeta. rewrite index_by_set_lookup. apply filter_filter.
Qed.

(** X22: a card that is in the index and whose name parses is in its own
    candidate pool. *)
Theorem searched_card_is_a_candidate (card : candidate) (all_cards : list candidate) :
  card ∈ all_cards ->
  parses card ->
  card ∈ find_candidates card (index_by_set all_cards).
Proof.
  intros Hin [parsed Hp]. unfold find_candidates. rewrite Hp. cbv zeta.
  rewrite index_by_set_lookup.
  apply list_elem_of_In, filter_In. split.
  - apply filter_In. split; [by apply list_elem_of_In | apply String.eqb_refl].
  - unfold same_base_name. rewrite Hp. apply String.eqb_refl.
Qed.

Lemma searched_card_is_a_candidate_witness :
  Tests.card "889159" "Pikachu #79" 551 (Int 16250) (Int 5000)
  ∈ find_candidates (Tests.card "889159" "Pikachu #79" 551 (Int 16250) (Int 5000))
      (index_by_set (Tests.charizard_candidates ++ Tests.pikachu_candidates)).
Proof.
  apply searched_card_is_a_candidate.
  - apply elem_of_app. right.
    do 2 apply list_elem_of_further. apply list_elem_of_here.
  - vm_compute. eauto.
Defined.

(** X23: the base-name gate cannot tell the candidates of one pool apart:
    for any title, either every candidate of the pool of a card passes the
    gate or none does.  When the searched card itself fails it, the matcher
    finds no match in the pool: the tier is "none". *)
Theorem pool_shares_the_gate
  (card : candidate) (all_by_set : gmap string (list candidate))
  (parsed : Card.parsed) (title : option string) (e : Ebay.parsed) :
  parse_card_name (card_name card) = Some parsed ->
  parse_ebay_title title = Some e ->
  (forall c q, c ∈ find_candidates card all_by_set ->
               parse_card_name (card_name c) = Some q ->
               passes_gate e q = passes_gate e parsed) /\
  (passes_gate e parsed = false ->
   result_tier (find_best_match title (find_candidates card all_by_set)) = Some none).
Proof.
  intros Hp He.
  assert (Hall : forall c q, c ∈ find_candidates card all_by_set ->
                   parse_card_name (card_name c) = Some q ->
                   passes_gate e q = passes_gate e parsed).
  { intros c q Hc Hq. unfold find_candidates in Hc. rewrite Hp in Hc.
    apply list_elem_of_In, filter_In in Hc as [_ Hc].
    by apply (same_base_name_gate e c parsed q). }
  split; [exact Hall|]. intros Hgate.
  unfold find_best_match. rewrite He.
  destruct (loop_result e (find_candidates card all_by_set))
    as (c' & s & b & -> & _ & [(_ & -> & _) | (c & _ & Hin & Hs & _)]);
    [reflexivity|].
  cbn [result_tier mbind result_bind]. f_equal.
  unfold candidate_score in Hs.
  destruct (parse_card_name (card_name c)) as [q|] eqn:Hq; [|discriminate].
  rewrite score_match_gate, (Hall c q Hin Hq), Hgate in Hs.
  destruct (first_word _); [|discriminate]. by injection Hs as <- _.
Qed.

Lemma pool_shares_the_gate_witness :
  result_tier
    (find_best_match (Some "Pikachu 79/115 Holon Phantoms")
       (find_candidates
          (Tests.card "630417" "Charizard #4" 33617 (Int 1621607) (Int 500000))
          (index_by_set Tests.charizard_candidates))) = Some none.
Proof.
  apply (pool_shares_the_gate
           (Tests.card "630417" "Charizard #4" 33617 (Int 1621607) (Int 500000))
           (index_by_set Tests.charizard_candidates)
           (Card.Parsed "Charizard" (Some "4") [] [])
           (Some "Pikachu 79/115 Holon Phantoms")
           (Ebay.Parsed "pikachu 79/115 holon phantoms" (Some "79") None None
              false [] ["holo"])).
  - vm_compute. reflexivity.
  - vm_compute. reflexivity.
  - reflexivity.
Defined.

(** ** URL slugs *)

Section SlugFacts.


Lemma forallb_filter_same {A} (f : A -> bool) (l : list A) :
  forallb f (List.filter f l) = true.
Proof.
  induction l as [|x l IH]; [reflexivity|].
  simpl. destruct (f x) eqn:E; [|exact IH]. simpl. by rewrite E.
Qed.

Lemma slug_char_not_space c :
  Pat2.slug_char c = true -> Char.is_space c = false -> url_char c = true.
Proof.
  unfold Pat2.slug_char, url_char. intros H Hs. rewrite Hs in H.
  by rewrite orb_false_r in H.
Qed.

Lemma url_char_not_space c : url_char c = true -> Char.is_space c = false.
Proof. destruct c as [[] [] [] [] [] [] [] []]; vm_compute; congruence. Qed.

End SlugFacts.


(** X25: the product part of the URL that [build_url] builds holds only the
    characters a-z, 0-9, dot, ampersand, apostrophe and hyphen (so no white
    space and no bracket or hash sign), and never two hyphens in a row. *)
Theorem product_slug_is_url_safe (console_name product_name : string) :
  build_url console_name product_name
    = "https://www.pricecharting.com/game/" +:+ console_slug console_name
      +:+ "/" +:+ product_slug product_name /\
  forallb url_char (Str.chars (product_slug product_name)) = true /\
  no_adjacent (Ascii.eqb "-") (Str.chars (product_slug product_name)) = true.
Proof.
  split; [reflexivity|].
  unfold product_slug. cbv zeta.
  set (s0 := remove_char "#" (remove_char "]" (remove_char "[" (Str.lower product_name)))).
  unfold Pat2.not_slug_char, Pat2.hyphens, Pat2.spaces, Pat.space, Pat.ch.
  rewrite sub_empty_chr, !re_sub_plus_chr.
  unfold Str.strip. rewrite !chars_of_chars.
  set (l1 := List.filter (fun c => negb (negb (Pat2.slug_char c))) (Str.chars s0)).
  assert (H1 : forallb Pat2.slug_char l1 = true).
  { pose proof (forallb_filter_same (fun c => negb (negb (Pat2.slug_char c)))
                  (Str.chars s0)) as H.
    rewrite forallb_forall in *. intros c Hc. specialize (H c Hc).
    by rewrite negb_involutive in H. }
  apply (proj2 (strip_chars_keeps l1)) in H1.
  set (l2 := Str.strip_chars l1) in *.
  set (l3 := collapse_runs Char.is_space (Str.chars "-") false l2).
  assert (H3 : forallb url_char l3 = true).
  { apply collapse_runs_forallb; [reflexivity|].
    intros c Hc Hs. apply slug_char_not_space; [|exact Hs].
    rewrite forallb_forall in H1. apply H1. by apply list_elem_of_In. }
  split.
  - apply collapse_runs_forallb; [reflexivity|].
    intros c Hc _. rewrite forallb_forall in H3. apply H3. by apply list_elem_of_In.
  - apply (collapse_runs_no_adjacent (Ascii.eqb "-") "-" l3 eq_refl false).
Qed.

(** ** The fair-value rule of the deal detector *)

Section ConditionFacts.
Import Re.

Lemma condition_grade_group (condition : string) (m : mstate) :
  search condition_grade condition = Some m ->
  exists g, group 1 m = Some g /\ grade_text g.
Proof.
  intros H. apply search_spans in H as (before & after & (m' & H & ->)).
  apply spans_grade_digits in H as (t & Hs & Ht).
  exists (Str.of_chars t). split; [|exact Ht].
  unfold group. simpl. by rewrite (text_between_app _ _ t).
Qed.

Lemma grade_text_parses g :
  grade_text g -> exists m e, Float.parse g = Some (Float.Dec false m e).
Proof.
  intros (ip & fp & Hne & Hip & Hfp & [-> | ->]).
  - rewrite <- (app_nil_r ip). apply parse_digits_dot; auto.
  - apply parse_digits_dot; eauto.
Qed.

End ConditionFacts.

Example condition_demo :
  get_fair_value_for_condition
    (Tests.card "630417" "Charizard #4" 33617 (Int 1621607) (Int 500000))
    (Some " CGC 9.5 ")
  = Ok (Some 500000, Label "PSA 9").
Proof. vm_compute. reflexivity. Qed.

(** X26: [get_fair_value_for_condition] never raises, whatever the condition
    text; when it answers "PSA 10" or "PSA 9" the value is the positive price
    of that tier, and with any other label the value is the raw price field
    (0 when the key is absent). *)
Theorem condition_value_is_total (trend : candidate) (condition : option string) :
  exists val label,
    get_fair_value_for_condition trend condition = Ok (val, label) /\
    ((label = Label "PSA 10" /\ val = get (current_psa10 trend) /\
      usable val = true) \/
     (label = Label "PSA 9" /\ val = get (current_psa9 trend) /\
      usable val = true) \/
     (label <> Label "PSA 10" /\ label <> Label "PSA 9" /\
      val = get_default (current_raw trend) 0)).
Proof.
  unfold get_fair_value_for_condition. cbv zeta.
  destruct (negb _).
  - eexists _, _. split; [reflexivity|]. right. right. repeat split; discriminate.
  - destruct (Re.search condition_grade _) as [m|] eqn:E.
    + apply condition_grade_group in E as (g & -> & Hg).
      destruct (grade_text_parses g Hg) as (mant & e & Hp).
      change (default "" (Some g)) with g. rewrite Hp.
      destruct (float_ge10 _ && usable (get (current_psa10 trend))) eqn:E10.
      * apply andb_prop in E10 as [_ E10].
        eexists _, _. split; [reflexivity|]. left. auto.
      * destruct (Float.ge9 _ && usable (get (current_psa9 trend))) eqn:E9.
        -- apply andb_prop in E9 as [_ E9].
           eexists _, _. split; [reflexivity|]. right. left. auto.
        -- eexists _, _. split; [reflexivity|]. right. right.
           repeat split; discriminate.
    + eexists _, _. split; [reflexivity|]. right. right. repeat split; discriminate.
Qed.

Section GreedyFacts.
Import Re.

(** A greedy star over one class reads the longest run, when what follows
    in the pattern accepts that. *)
Lemma star_chr_greedy_k p (k : mstate -> option mstate) (r : mstate) :
  forall after before gs,
    k (MState (rev (run_of p after) ++ before) (Str.lstrip_by p after) gs) = Some r ->
    rmatch (Star true (Chr p)) (MState before after gs) k = Some r.
Proof.
  induction after as [|c tl IH]; intros before gs Hk.
  - exact Hk.
  - specialize (IH (c :: before) gs).
    cbn [rmatch rest seen groups length] in *.
    cbn [run_of Str.lstrip_by] in Hk.
    destruct (p c) eqn:Hp.
    + assert (Hlt : (length tl <? S (length tl))%nat = true)
        by (apply Nat.ltb_lt; lia).
      rewrite Hlt, IH; [reflexivity|].
      cbn [rev] in Hk. by rewrite <- app_assoc in Hk.
    + cbn [orelse]. exact Hk.
Qed.

Lemma run_of_app p ds tail :
  forallb p ds = true ->
  match tail with [] => True | c :: _ => p c = false end ->
  run_of p (ds ++ tail) = ds /\ Str.lstrip_by p (ds ++ tail) = tail.
Proof.
  intros Hds Ht. induction ds as [|d ds IH]; simpl.
  - destruct tail as [|c tail]; [auto|]. simpl. by rewrite Ht.
  - simpl in Hds. apply andb_prop in Hds as [-> Hds].
    destruct (IH Hds) as [-> ->]. auto.
Qed.

Lemma rmatch_seq r1 r2 st k :
  rmatch (Seq r1 r2) st k = rmatch r1 st (fun st1 => rmatch r2 st1 k).
Proof. reflexivity. Qed.

Lemma rmatch_alt r1 r2 st k :
  rmatch (Alt r1 r2) st k = orelse (rmatch r1 st k) (fun _ => rmatch r2 st k).
Proof. reflexivity. Qed.

Lemma rmatch_chr p before after gs k :
  rmatch (Chr p) (MState before after gs) k =
  match after with
  | c :: tl => if p c then k (MState (c :: before) tl gs) else None
  | [] => None
  end.
Proof. reflexivity. Qed.

Lemma rmatch_eps st k : rmatch Eps st k = k st.
Proof. reflexivity. Qed.

Lemma rmatch_group i r st k :
  rmatch (Group i r) st k = rmatch r st (fun st' => k (close_group i st st')).
Proof. reflexivity. Qed.

Lemma orelse_first {A} (x : option A) y r : x = Some r -> orelse x y = Some r.
Proof. by intros ->. Qed.

(** At a grade text that ends the string, the grade pattern reads all of it. *)
Lemma condition_grade_at (before ip tail : list ascii) :
  ip <> [] ->
  forallb Char.is_digit ip = true ->
  (tail = [] \/ exists fp, tail = "."%char :: fp /\ forallb Char.is_digit fp = true) ->
  exists m, match_at condition_grade before (ip ++ tail) = Some m /\
            group 1 m = Some (Str.of_chars (ip ++ tail)).
Proof.
  intros Hne Hip Htail.
  destruct ip as [|d ds]; [congruence|].
  simpl in Hip. apply andb_prop in Hip as [Hd Hds].
  assert (Hstop : match tail with [] => True | c :: _ => Char.is_digit c = false end).
  { destruct Htail as [-> | (fp & -> & _)]; [exact I | reflexivity]. }
  destruct (run_of_app Char.is_digit ds tail Hds Hstop) as [Hrun Hrest].
  set (st0 := MState before ((d :: ds) ++ tail) []).
  assert (Hend : forall seen4 t,
            seen4 = rev t ++ before ->
            group 1 (close_group 1 st0 (MState seen4 [] [])) = Some (Str.of_chars t)).
  { intros seen4 t ->. unfold group. cbn [close_group groups group_lookup Nat.eqb].
    cbn [fmap option_fmap option_map]. f_equal. f_equal.
    apply text_between_app. reflexivity. }
  unfold match_at, condition_grade, Pat.grade_digits, Plus, Opt, Pat.digit, Pat.ch.
  fold st0. unfold st0 at 1. cbn [app].
  rewrite rmatch_group, !rmatch_seq, rmatch_chr, Hd.
  destruct Htail as [-> | (fp & -> & Hfp)].
  - eexists. split.
    + apply star_chr_greedy_k. rewrite Hrun, Hrest.
      rewrite rmatch_seq, rmatch_alt, rmatch_chr. cbn [orelse].
      rewrite rmatch_eps. apply star_chr_greedy_k. cbn [run_of Str.lstrip_by rev app].
      reflexivity.
    + apply Hend. rewrite app_nil_r. cbn [rev]. by rewrite <- app_assoc.
  - destruct (run_of_app Char.is_digit fp [] Hfp I) as [Hrun2 Hrest2].
    rewrite app_nil_r in Hrun2, Hrest2.
    eexists. split.
    + apply star_chr_greedy_k. rewrite Hrun, Hrest.
      rewrite rmatch_seq, rmatch_alt, rmatch_chr, Ascii.eqb_refl.
      apply orelse_first. apply star_chr_greedy_k. rewrite Hrun2, Hrest2.
      reflexivity.
    + apply Hend.
      change ((d :: ds) ++ "."%char :: fp) with (d :: (ds ++ "."%char :: fp)).
      cbn [rev]. rewrite rev_app_distr. cbn [rev app].
      by rewrite <- !app_assoc.
Qed.

Lemma search_from_skip (pre l before : list ascii) :
  forallb (fun c => negb (Char.is_digit c)) pre = true ->
  search_from condition_grade before (pre ++ l)
  = search_from condition_grade (rev pre ++ before) l.
Proof.
  revert before. induction pre as [|c pre IH]; intros before Hpre; [reflexivity|].
  simpl in Hpre. apply andb_prop in Hpre as [Hc Hpre].
  apply negb_true_iff in Hc.
  cbn [app search_from]. unfold match_at at 1, condition_grade, Pat.grade_digits, Plus, Pat.digit.
  cbn [rmatch rest seen groups]. rewrite Hc.
  rewrite (IH _ Hpre). cbn [rev]. by rewrite <- app_assoc.
Qed.

Lemma search_condition (pre ip tail : list ascii) :
  forallb (fun c => negb (Char.is_digit c)) pre = true ->
  ip <> [] ->
  forallb Char.is_digit ip = true ->
  (tail = [] \/ exists fp, tail = "."%char :: fp /\ forallb Char.is_digit fp = true) ->
  exists m, search condition_grade (Str.of_chars (pre ++ ip ++ tail)) = Some m /\
            group 1 m = Some (Str.of_chars (ip ++ tail)).
Proof.
  intros Hpre Hne Hip Htail. unfold search.
  rewrite chars_of_chars, (search_from_skip _ _ _ Hpre).
  destruct (condition_grade_at (rev pre ++ []) ip tail Hne Hip Htail) as (m & Hm & Hg).
  exists m. split; [|exact Hg].
  destruct ip as [|d ds]; [congruence|].
  cbn [app search_from] in *. by rewrite Hm.
Qed.

End GreedyFacts.

Section SelectorFacts.

Lemma strip_chars_id (l : list ascii) :
  match l with c :: _ => Char.is_space c = false | [] => True end ->
  match rev l with c :: _ => Char.is_space c = false | [] => True end ->
  Str.strip_chars l = l.
Proof.
  intros Hhead Hlast. unfold Str.strip_chars, Str.rstrip_by.
  destruct (rev l) as [|x r] eqn:E.
  - apply (f_equal (@rev _)) in E. rewrite rev_involutive in E. by subst l.
  - rewrite (lstrip_by_head _ _ _ Hlast), <- E, rev_involutive.
    destruct l as [|c l]; [reflexivity|]. by apply lstrip_by_head.
Qed.

Lemma digit_not_space c : Char.is_digit c = true -> Char.is_space c = false.
Proof.
  destruct c as [[] [] [] [] [] [] [] []]; intros H; vm_compute in H |- *;
    first [discriminate H | reflexivity].
Qed.

Lemma rev_head_digit ds :
  ds <> [] -> forallb Char.is_digit ds = true ->
  exists x r, rev ds = x :: r /\ Char.is_digit x = true.
Proof.
  intros Hne Hd. destruct (rev ds) as [|x r] eqn:E.
  - apply (f_equal (@rev _)) in E. rewrite rev_involutive in E. simpl in E. congruence.
  - exists x, r. split; [reflexivity|].
    rewrite forallb_forall in Hd. apply Hd, in_rev. rewrite E. by left.
Qed.

(** A grade text as a list: digits, then nothing or a dot and digits; its
    last character is no white space. *)
Lemma grade_text_chars g :
  grade_text g ->
  exists ip tail,
    g = Str.of_chars (ip ++ tail) /\ ip <> [] /\
    forallb Char.is_digit ip = true /\
    (tail = [] \/ exists fp, tail = "."%char :: fp /\ forallb Char.is_digit fp = true) /\
    match rev (ip ++ tail) with c :: _ => Char.is_space c = false | [] => True end.
Proof.
  intros (ip & fp & Hne & Hip & Hfp & Hg).
  destruct Hg as [-> | ->].
  - exists ip, []. rewrite app_nil_r. repeat split; auto.
    destruct (rev_head_digit ip Hne Hip) as (x & r & -> & Hx).
    by apply digit_not_space.
  - exists ip, ("."%char :: fp). repeat split; eauto.
    rewrite rev_app_distr. cbn [rev].
    destruct fp as [|f fp]; [reflexivity|].
    destruct (rev_head_digit (f :: fp)) as (x & r & E & Hx); [discriminate | exact Hfp |].
    rewrite E. cbn [app]. by apply digit_not_space.
Qed.

Lemma company_facts co :
  co ∈ Pat.companies ->
  Str.truthy co = true /\
  forallb (fun c => negb (Char.is_digit c)) (Str.chars co ++ [" "%char]) = true /\
  match Str.chars co with c :: _ => Char.is_space c = false | [] => False end /\
  Str.lower co ∈ grading_companies.
Proof.
  intros H. apply list_elem_of_In in H. unfold Pat.companies in H. simpl in H.
  repeat (destruct H as [<- | H];
          [repeat split; try reflexivity; apply list_elem_of_In; vm_compute; tauto|]).
  contradiction.
Qed.

(** On a condition "COMPANY grade" the rule reads the company and the whole
    grade, and selects on the value of the grade. *)
Lemma condition_of_company_grade (trend : candidate) (co g : string) lit :
  co ∈ Pat.companies ->
  grade_text g ->
  Float.parse g = Some lit ->
  get_fair_value_for_condition trend (Some (co +:+ " " +:+ g)) =
  if float_ge10 lit && usable (get (current_psa10 trend))
  then Ok (get (current_psa10 trend), Label "PSA 10")
  else if Float.ge9 lit && usable (get (current_psa9 trend))
  then Ok (get (current_psa9 trend), Label "PSA 9")
  else Ok (get_default (current_raw trend) 0, RawNoDataForGrade lit).
Proof.
  intros Hco Hg Hlit.
  destruct (company_facts co Hco) as (_ & Hnd & Hhead & Hlow).
  destruct (grade_text_chars g Hg) as (ip & tail & -> & Hne & Hip & Htail & Hlast).
  assert (Hchars : Str.chars (co +:+ " " +:+ Str.of_chars (ip ++ tail))
                   = (Str.chars co ++ [" "%char]) ++ ip ++ tail).
  { rewrite !chars_append, chars_of_chars. by rewrite <- app_assoc. }
  assert (Hstrip : Str.strip (co +:+ " " +:+ Str.of_chars (ip ++ tail))
                   = Str.of_chars ((Str.chars co ++ [" "%char]) ++ ip ++ tail)).
  { unfold Str.strip. rewrite Hchars. f_equal. apply strip_chars_id.
    - destruct (Str.chars co); [contradiction | exact Hhead].
    - rewrite rev_app_distr. destruct (rev (ip ++ tail)) as [|x r] eqn:E.
      + apply (f_equal (@length _)) in E. rewrite length_rev, length_app in E.
        destruct ip; [congruence | discriminate].
      + exact Hlast. }
  unfold get_fair_value_for_condition. cbv zeta.
  change (default "" (Some (co +:+ " " +:+ Str.of_chars (ip ++ tail))))
    with (co +:+ " " +:+ Str.of_chars (ip ++ tail)).
  rewrite Hstrip.
  destruct (search_condition _ ip tail Hnd Hne Hip Htail) as (m & -> & ->).
  change (default "" (Some (Str.of_chars (ip ++ tail))))
    with (Str.of_chars (ip ++ tail)).
  rewrite Hlit.
  assert (Hgraded : existsb
            (fun co0 => Str.contains co0
               (Str.lower (Str.of_chars ((Str.chars co ++ [" "%char]) ++ ip ++ tail))))
            grading_companies = true).
  { apply existsb_exists. exists (Str.lower co).
    split; [by apply list_elem_of_In|].
    rewrite <- Hchars, of_chars_chars, lower_append.
    apply (contains_append _ ""). }
  rewrite Hgraded. reflexivity.
Qed.

Lemma graded_title_condition (title : option string) (p : Ebay.parsed) (g : string) :
  parse_ebay_title title = Some p ->
  Ebay.grade_number p = Some g ->
  exists co,
    co ∈ Pat.companies /\ grade_text g /\ Ebay.is_graded p = true /\
    condition_of p = co +:+ " " +:+ g.
Proof.
  destruct title as [title|]; [|discriminate].
  intros Hp Hgn. apply parse_ebay_title_Some in Hp as (_ & _ & Hg & _).
  destruct (grading_info_cases title (Str.lower title))
    as [(co & g' & E & Hco & Ht) | (graded & E)];
    rewrite E in Hg; injection Hg as Hc Hn Hgr; [|congruence].
  rewrite Hgn in Hn. injection Hn as ->.
  exists co. repeat split; auto.
  destruct (company_facts co Hco) as (Htco & _).
  unfold condition_of. rewrite Hgr, Hc, Hgn. cbn [truthy_opt].
  by rewrite Htco, (grade_text_truthy _ Ht).
Qed.

End SelectorFacts.

(** X27: the two fair-value rules agree on the listings the scraper stores.
    For a parsed title with a grade, the rule of the deal detector, applied
    to the condition text "COMPANY grade" that [process_listing] stores,
    returns the same value as [get_fair_value] whenever the grade text is
    "10", or the grade is at least 9 and below 10. *)
Theorem selectors_agree_from_9
  (title : option string) (p : Ebay.parsed) (c : candidate) (g : string)
  (lit : Float.literal) :
  parse_ebay_title title = Some p ->
  Ebay.grade_number p = Some g ->
  Float.parse g = Some lit ->
  g = "10" \/ (Float.ge9 lit = true /\ float_ge10 lit = false) ->
  result_value (get_fair_value_for_condition c (Some (condition_of p)))
  = result_value (get_fair_value (Some c) (Some p)).
Proof.
  intros Hp Hgn Hlit Hcase.
  destruct (graded_title_condition _ _ _ Hp Hgn) as (co & Hin & Ht & Hgr & Hcond).
  rewrite Hcond, (condition_of_company_grade c co g lit Hin Ht Hlit).
  unfold get_fair_value. rewrite Hgr, Hgn. cbn [truthy_opt opt_eqb].
  rewrite (grade_text_truthy _ Ht).
  change (default "" (Some g)) with g.
  unfold Float.float_ge9. rewrite Hlit. unfold mbind, result_bind.
  destruct Hcase as [-> | [H9 H10]].
  - injection Hlit as <-. cbn [String.eqb Ascii.eqb Bool.eqb andb].
    change (float_ge10 _) with true. change (Float.ge9 _) with true.
    cbn [andb].
    destruct (usable (get (current_psa10 c))); [reflexivity|].
    destruct (usable (get (current_psa9 c))); reflexivity.
  - rewrite H9, H10. cbn [andb].
    destruct (String.eqb g "10" && usable (get (current_psa10 c))) eqn:E.
    + apply andb_prop in E as [E _]. apply String.eqb_eq in E. subst g.
      injection Hlit as <-. discriminate H10.
    + destruct (usable (get (current_psa9 c))); reflexivity.
Qed.

Lemma selectors_agree_from_9_witness :
  result_value
    (get_fair_value_for_condition
       (Tests.card "630417" "Charizard #4" 33617 (Int 1621607) (Int 500000))
       (Some "BGS 9.5"))
  = result_value
      (get_fair_value
         (Some (Tests.card "630417" "Charizard #4" 33617 (Int 1621607) (Int 500000)))
         (Some (Ebay.Parsed "charizard 4/102 bgs 9.5" (Some "4") (Some "BGS")
                  (Some "9.5") true [] []))).
Proof.
  apply (selectors_agree_from_9 (Some "Charizard 4/102 BGS 9.5")
           (Ebay.Parsed "charizard 4/102 bgs 9.5" (Some "4") (Some "BGS")
              (Some "9.5") true [] [])
           (Tests.card "630417" "Charizard #4" 33617 (Int 1621607) (Int 500000))
           "9.5" (Float.Dec false 95 (-1))).
  - vm_compute. reflexivity.
  - reflexivity.
  - vm_compute. reflexivity.
  - right. split; vm_compute; reflexivity.
Defined.

(** X28: below grade 9 the two rules part: where the second-tier price is
    usable, [get_fair_value] returns it as an estimate ("Graded (est)"),
    while the rule of the deal detector returns the raw price field. *)
Theorem selectors_differ_below_9
  (title : option string) (p : Ebay.parsed) (c : candidate) (g : string)
  (lit : Float.literal) :
  parse_ebay_title title = Some p ->
  Ebay.grade_number p = Some g ->
  Float.parse g = Some lit ->
  Float.ge9 lit = false ->
  usable (get (current_psa9 c)) = true ->
  get_fair_value (Some c) (Some p) = Ok (get (current_psa9 c), "Graded (est)") /\
  get_fair_value_for_condition c (Some (condition_of p))
  = Ok (get_default (current_raw c) 0, RawNoDataForGrade lit).
Proof.
  intros Hp Hgn Hlit H9 Hu.
  destruct (graded_title_condition _ _ _ Hp Hgn) as (co & Hin & Ht & Hgr & Hcond).
  assert (H10 : float_ge10 lit = false).
  { destruct lit as [[]| |[] m e]; try reflexivity; try discriminate H9.
    cbn [Float.ge9 float_ge10] in *. cbv zeta in *.
    assert (Hb : 9 * 2 ^ 50 - 1 < 10 * 2 ^ 50 - 1) by reflexivity.
    revert H9 Hb. generalize (9 * 2 ^ 50 - 1) (10 * 2 ^ 50 - 1). intros b9 b10 H9 Hb.
    destruct (Z.leb_spec 0 e); apply Z.leb_gt; apply Z.leb_gt in H9.
    - lia.
    - assert (0 < 10 ^ (- e)) by (apply Z.pow_pos_nonneg; lia).
      apply Z.lt_trans with (b9 * 10 ^ (- e)); [exact H9|].
      apply Z.mul_lt_mono_pos_r; assumption. }
  split.
  - unfold get_fair_value. rewrite Hgr, Hgn. cbn [truthy_opt opt_eqb].
    rewrite (grade_text_truthy _ Ht). change (default "" (Some g)) with g.
    unfold Float.float_ge9. rewrite Hlit, H9, Hu. unfold mbind, result_bind.
    destruct (String.eqb g "10" && usable (get (current_psa10 c))) eqn:E;
      [|reflexivity].
    apply andb_prop in E as [E _]. apply String.eqb_eq in E. subst g.
    injection Hlit as <-. discriminate H9.
  - rewrite Hcond, (condition_of_company_grade c co g lit Hin Ht Hlit).
    by rewrite H9, H10.
Qed.

Lemma selectors_differ_below_9_witness :
  get_fair_value
    (Some (Tests.card "630417" "Charizard #4" 33617 (Int 1621607) (Int 500000)))
    (Some (Ebay.Parsed "charizard 4/102 psa 7" (Some "4") (Some "PSA") (Some "7")
             true [] []))
  = Ok (Some 500000, "Graded (est)") /\
  get_fair_value_for_condition
    (Tests.card "630417" "Charizard #4" 33617 (Int 1621607) (Int 500000))
    (Some "PSA 7")
  = Ok (Some 33617, RawNoDataForGrade (Float.Dec false 7 0)).
Proof.
  apply (selectors_differ_below_9 (Some "Charizard 4/102 PSA 7")
           (Ebay.Parsed "charizard 4/102 psa 7" (Some "4") (Some "PSA") (Some "7")
              true [] [])
           (Tests.card "630417" "Charizard #4" 33617 (Int 1621607) (Int 500000))
           "7" (Float.Dec false 7 0)).
  - vm_compute. reflexivity.
  - reflexivity.
  - vm_compute. reflexivity.
  - vm_compute. reflexivity.
  - reflexivity.
Defined.
